(** * concurrent-etl-go: a shallow embedding of the ETL pipeline

    The development follows the layout of [main.go]: data structures,
    configuration, the Go library operations the program calls, and then
    the program's own functions (transform, loadWorker, flushBuffer,
    sendToAPI, loadFailedBuffers, readBufferFromFile, extractWorkerID,
    saveBufferToFile, readAppliancesFromCSV) and the admission-controlled
    extraction loop of [main]. *)

From Stdlib Require Import ZArith Lia Bool Ascii String List.
From Stdlib Require Import Floats.SpecFloat.
From stdpp Require Import base option list sorting gmap strings.

Local Open Scope Z_scope.

(** ** Go strings

    A Go string is a sequence of bytes; [string] (a list of [ascii]) is
    the same thing. *)

Module GoStrings.

Definition slash : ascii := "/"%char.

(** [strings.HasPrefix]. *)
Definition HasPrefix (s pre : string) : bool := String.prefix pre s.

(** [trim_suffix_opt s suf] is [Some a] when [s = a ++ suf]. *)
Fixpoint trim_suffix_opt (s suf : string) : option string :=
  if String.eqb s suf then Some EmptyString
  else match s with
       | EmptyString => None
       | String c s' => option_map (String c) (trim_suffix_opt s' suf)
       end.

(** [strings.HasSuffix]. *)
Definition HasSuffix (s suf : string) : bool :=
  match trim_suffix_opt s suf with Some _ => true | None => false end.

(** [strings.TrimSuffix]: [s] without the trailing [suf]; [s] itself when
    it does not end in [suf]. *)
Definition TrimSuffix (s suf : string) : string :=
  match trim_suffix_opt s suf with Some a => a | None => s end.

(** [strings.Split s sep] for a non-empty separator: the substrings
    between the occurrences of [sep], found from left to right without
    overlap.  [skip] counts the bytes of a separator just matched that
    are still to be passed over; [cur] is the piece being collected. *)
Fixpoint split_go (sep : string) (skip : nat) (cur : string) (s : string)
  : list string :=
  match s with
  | EmptyString => [cur]
  | String c s' =>
      match skip with
      | S k => split_go sep k cur s'
      | O =>
          if String.prefix sep s
          then cur :: split_go sep (String.length sep - 1) EmptyString s'
          else split_go sep O (cur +:+ String c EmptyString) s'
      end
  end.

Definition Split (s sep : string) : list string :=
  split_go sep O EmptyString s.

(** The number of non-overlapping occurrences of [sep], counted from
    the left ([strings.Count]). *)
Fixpoint count_go (sep : string) (skip : nat) (s : string) : nat :=
  match s with
  | EmptyString => O
  | String c s' =>
      match skip with
      | S k => count_go sep k s'
      | O =>
          if String.prefix sep s
          then S (count_go sep (String.length sep - 1) s')
          else count_go sep O s'
      end
  end.

Definition Count (s sep : string) : nat := count_go sep O s.

(** Every byte of [s] satisfies [P]. *)
Fixpoint string_forall (P : ascii -> bool) (s : string) : bool :=
  match s with
  | EmptyString => true
  | String c s' => P c && string_forall P s'
  end.

Fixpoint has_slash (s : string) : bool :=
  match s with
  | EmptyString => false
  | String c s' => Ascii.eqb c slash || has_slash s'
  end.

Fixpoint all_slashes (s : string) : bool :=
  match s with
  | EmptyString => true
  | String c s' => Ascii.eqb c slash && all_slashes s'
  end.

(** The loop of [filepath.Base] that strips trailing separators. *)
Fixpoint strip_trailing_slashes (s : string) : string :=
  match s with
  | EmptyString => EmptyString
  | String c s' =>
      if all_slashes s then EmptyString
      else String c (strip_trailing_slashes s')
  end.

(** What follows the last separator. *)
Fixpoint after_last_slash (s : string) : string :=
  match s with
  | EmptyString => EmptyString
  | String c s' =>
      if has_slash s' then after_last_slash s'
      else if Ascii.eqb c slash then s' else s
  end.

(** [filepath.Base] on a Unix path: the last element of the path, ["."]
    for the empty path, ["/"] for a path of separators only. *)
Definition Base (path : string) : string :=
  if String.eqb path "" then "."
  else
    let p := after_last_slash (strip_trailing_slashes path) in
    if String.eqb p "" then "/" else p.

End GoStrings.

(** ** strconv: integers

    Go's [int] is 64 bits wide on the platforms the program targets. *)

Module Strconv.

Inductive NumError := ErrSyntax | ErrRange.

Definition maxInt : Z := 2 ^ 63 - 1.
Definition minInt : Z := - 2 ^ 63.

Definition is_digit (c : ascii) : bool :=
  let n := nat_of_ascii c in (48 <=? n)%nat && (n <=? 57)%nat.

Definition digit_val (c : ascii) : Z := Z.of_nat (nat_of_ascii c) - 48.

Definition digit_char (d : Z) : ascii := ascii_of_nat (Z.to_nat (48 + d)).

(** [strconv.Atoi] below reads an optional sign and at least one decimal
    digit.  On a syntax error the value is 0; on a range error it is the
    nearest bound. *)

(** Value of a run of decimal digits, most significant first; [None] when
    a byte is not a digit. *)
Fixpoint parse_digits (acc : Z) (s : string) : option Z :=
  match s with
  | EmptyString => Some acc
  | String c s' =>
      if is_digit c then parse_digits (10 * acc + digit_val c) s' else None
  end.

(** The digits of [Atoi]'s argument once the sign is taken off. *)
Definition atoi_signed (neg : bool) (body : string) : Z * option NumError :=
  match body with
  | EmptyString => (0, Some ErrSyntax)
  | _ =>
      match parse_digits 0 body with
      | None => (0, Some ErrSyntax)
      | Some n =>
          if neg then
            if 2 ^ 63 <? n then (minInt, Some ErrRange) else (- n, None)
          else
            if maxInt <? n then (maxInt, Some ErrRange) else (n, None)
      end
  end.

Definition Atoi (s : string) : Z * option NumError :=
  match s with
  | String c r =>
      if Ascii.eqb c "-" then atoi_signed true r
      else if Ascii.eqb c "+" then atoi_signed false r
      else atoi_signed false s
  | EmptyString => atoi_signed false s
  end.

Fixpoint all_digits (s : string) : bool :=
  match s with
  | EmptyString => true
  | String c s' => is_digit c && all_digits s'
  end.

(** The strings [Atoi] accepts as far as syntax goes: an optional sign
    followed by one or more decimal digits. *)
Definition numeric (s : string) : bool :=
  let body :=
    match s with
    | String c r =>
        if Ascii.eqb c "-" || Ascii.eqb c "+" then r else s
    | EmptyString => s
    end in
  negb (String.eqb body "") && all_digits body.

(** Decimal digits of a non-negative number, prepended to [acc]. *)
Fixpoint utoa_go (fuel : nat) (n : Z) (acc : string) : string :=
  let acc' := String (digit_char (n mod 10)) acc in
  match fuel with
  | O => acc'
  | S f => if n <? 10 then acc' else utoa_go f (n / 10) acc'
  end.

Definition utoa (n : Z) : string :=
  utoa_go (Z.to_nat (Z.log2 n)) n EmptyString.

(** [strconv.Itoa], which is also what the verb [%d] prints. *)
Definition Itoa (n : Z) : string :=
  if n <? 0 then String "-" (utoa (- n)) else utoa n.

End Strconv.

Import GoStrings Strconv.

(** ** Parsing the lane of a persisted file (main.go, extractWorkerID) *)

Definition extractWorkerID (fileName : string) : Z :=
  let base := Base fileName in
  let parts := Split (TrimSuffix base ".json.gz") "worker" in
  match parts with
  | [_; p1] =>
      match Atoi p1 with
      | (id, None) => id
      | (_, Some _) => 0
      end
  | _ => 0
  end.


(** [fmt.Sprintf("buffer_failed_worker%d", workerID)], the name
    [flushBuffer] hands to [saveBufferToFile]. *)
Definition failedBufferName (workerID : Z) : string :=
  "buffer_failed_worker" +:+ Itoa workerID.

(** The line-feed byte that [json.Encoder.Encode] writes after a value. *)
Definition newline : string := String (ascii_of_nat 10) EmptyString.

(** ** float64

    [float64] values are IEEE 754 binary64 numbers, given by the
    specification floats of the standard library with 53 bits of precision
    and exponent bound 1024; arithmetic rounds to nearest even as Go's
    does. *)

Definition float64 : Type := spec_float.

Definition float64_of_Z (n : Z) : float64 := binary_normalize 53 1024 n 0 false.
Definition float64_sub (x y : float64) : float64 := SFsub 53 1024 x y.
Definition float64_div (x y : float64) : float64 := SFdiv 53 1024 x y.
Definition float64_zero : float64 := S754_zero false.

(** Neither NaN nor an infinity. *)
Definition float64_finite (x : float64) : bool :=
  match x with
  | S754_zero _ | S754_finite _ _ _ => true
  | S754_infinity _ | S754_nan => false
  end.

(** ** Data structures (main.go, "Data Structures") *)

Record Appliance := mkAppliance {
  IP : string;
  HostName : string
}.

Record CpuStats := mkCpuStats {
  cpu_Name : string;
  cpu_Timestamp : Z;
  cpu_CPUNumber : string;
  PIdle : string;
  PUser : string;
  PSys : string;
  PIRQ : string;
  PNice : string
}.

Record Indicator := mkIndicator {
  ind_Name : string;
  ind_Value : float64
}.

Record DeviceData := mkDeviceData {
  Name : string;
  CPUNumber : string;
  Timestamp : Z;
  Indicators : list Indicator
}.

(** [Buffer] embeds a [sync.Mutex]; a lane's buffer is touched by its own
    load worker only, so the lock carries no state here. *)
Record Buffer := mkBuffer {
  Data : list DeviceData
}.

(** ** Configuration (main.go, "Configuration")

    The constants of the program, gathered so that statements can range
    over them; [sourceConfig] holds the values main.go is compiled with.
    [chanCapacity] is the literal 2000 of [initChannels]. *)

Record Config := mkConfig {
  bufferThreshold : nat;
  extractWorkers : nat;
  loadWorkers : nat;
  chanCapacity : nat
}.

Definition sourceConfig : Config :=
  {| bufferThreshold := 200;
     extractWorkers := 1000;
     loadWorkers := 10;
     chanCapacity := 2000 |}.

(** ** UTF-8

    [encoding/json] writes a string byte for byte only when it is valid
    UTF-8 ([utf8.ValidString]); other bytes are replaced by U+FFFD. *)

Definition byte_in (lo hi : nat) (c : ascii) : bool :=
  let n := nat_of_ascii c in (lo <=? n)%nat && (n <=? hi)%nat.

Fixpoint utf8_valid (s : string) : bool :=
  match s with
  | EmptyString => true
  | String c0 r0 =>
      if byte_in 0 127 c0 then utf8_valid r0
      else
        match r0 with
        | EmptyString => false
        | String c1 r1 =>
            if byte_in 194 223 c0 then byte_in 128 191 c1 && utf8_valid r1
            else
              match r1 with
              | EmptyString => false
              | String c2 r2 =>
                  if byte_in 224 239 c0 then
                    (if byte_in 224 224 c0 then byte_in 160 191 c1
                     else if byte_in 237 237 c0 then byte_in 128 159 c1
                     else byte_in 128 191 c1)
                    && byte_in 128 191 c2 && utf8_valid r2
                  else
                    match r2 with
                    | EmptyString => false
                    | String c3 r3 =>
                        byte_in 240 244 c0
                        && (if byte_in 240 240 c0 then byte_in 144 191 c1
                            else if byte_in 244 244 c0 then byte_in 128 143 c1
                            else byte_in 128 191 c1)
                        && byte_in 128 191 c2 && byte_in 128 191 c3
                        && utf8_valid r3
                    end
              end
        end
  end.

(** ** The Go library as the program uses it

    The program calls [strconv.ParseFloat], [encoding/json],
    [compress/gzip] and [encoding/csv].  Their code is not part of the
    repository; they enter the model as the operations of a [GoLib], and
    [GoLibSpec] states the parts of their documented behaviour that the
    proofs rely on. *)

Record GoLib := mkGoLib {
  (** [strconv.ParseFloat(s, 64)]: value and error. *)
  ParseFloat : string -> float64 * option NumError;
  (** [json.Marshal] of a [[]DeviceData]; [None] is its error
      (an unsupported value). *)
  json_Marshal : list DeviceData -> option string;
  (** [json.Decoder.Decode] into a [[]DeviceData]: the first JSON value of
      the stream; [None] is its error. *)
  json_Decode : string -> option (list DeviceData);
  (** What a [gzip.Writer] has written once it is closed. *)
  gzip_compress : string -> string;
  (** What a [gzip.Reader] yields; [None] when the stream is not gzip. *)
  gzip_decompress : string -> option string;
  (** The records [encoding/csv] lexes from a text, before the reader's
      check on the number of fields; [None] is a quoting error. *)
  csv_records : string -> option (list (list string))
}.

(** JSON has no notation for NaN and the infinities: [Marshal] fails on
    them with an [UnsupportedValueError]. *)
Definition json_supported (ds : list DeviceData) : bool :=
  forallb (fun d => forallb (fun i => float64_finite (ind_Value i)) (Indicators d)) ds.

(** The records that JSON represents without loss: numbers that are
    genuine finite binary64 values, a timestamp within [uint64], and text
    that is valid UTF-8. *)
Definition indicator_exact (i : Indicator) : bool :=
  utf8_valid (ind_Name i)
  && float64_finite (ind_Value i)
  && valid_binary 53 1024 (ind_Value i).

Definition record_exact (d : DeviceData) : bool :=
  utf8_valid (Name d) && utf8_valid (CPUNumber d)
  && (0 <=? Timestamp d) && (Timestamp d <? 2 ^ 64)
  && forallb indicator_exact (Indicators d).

Definition json_exact (ds : list DeviceData) : bool := forallb record_exact ds.

Record GoLibSpec (L : GoLib) : Prop := mkGoLibSpec {
  (** "If s is not syntactically well-formed, ParseFloat returns
      err.Err = ErrSyntax"; the value returned with it is 0. *)
  ParseFloat_syntax : forall s v,
    ParseFloat L s = (v, Some ErrSyntax) -> v = float64_zero;
  json_Marshal_supported : forall ds,
    json_Marshal L ds = None <-> json_supported ds = false;
  json_Decode_Marshal : forall ds b,
    json_exact ds = true ->
    json_Marshal L ds = Some b ->
    json_Decode L (b +:+ newline) = Some ds;
  (** Decoding an empty stream fails with [io.EOF]. *)
  json_Decode_empty : json_Decode L "" = None;
  gzip_roundtrip : forall b, gzip_decompress L (gzip_compress L b) = Some b
}.


(** ** The world outside the process

    [Sys] is what the program reads and changes outside its own memory:
    the working directory, the requests that reached the ingestion
    endpoint (oldest first), and the log.  [Env] is what the outside
    decides: the endpoint's answer to a request, given the requests it
    has seen before, and whether the file system lets a file be created
    or removed. *)

Inductive HttpResult :=
| NetError                                   (* [client.Do] returned an error *)
| Response (status : Z) (body : string).

Inductive LogEvent :=
| LogApiLoadFailed (workerID : Z)          (* "[Loader-%d] API load failed: %v. Saving buffer." *)
| LogFlushed (workerID : Z) (n : nat)      (* "[Loader-%d] Successfully flushed %d records" *)
| LogCreateFailed                          (* "Failed to create file: %v" *)
| LogEncodeFailed                          (* "Failed to encode buffer: %v" *)
| LogReloading (file : string)             (* "Reloading failed buffer: %s" *)
| LogReadFailed (file : string)            (* "Failed to read %s: %v" *)
| LogDeleteFailed (file : string)          (* "Failed to delete %s: %v" *)
| LogDeleted (file : string)               (* "Deleted failed buffer file: %s" *)
| LogSkippingInvalidLine (line : nat).     (* "Skipping invalid line %d" *)

Record Env := mkEnv {
  endpoint : list string -> string -> HttpResult;
  create_ok : string -> bool;
  remove_ok : string -> bool
}.

Record Sys := mkSys {
  files : gmap string string;
  requests : list string;
  logs : list LogEvent
}.

Definition log_Printf (e : LogEvent) (s : Sys) : Sys :=
  {| files := files s; requests := requests s; logs := logs s ++ [e] |}.

Inductive SendError :=
| ErrTransport
| ErrAPI (body : string).

Inductive ReadError :=
| ErrOpen
| ErrGzipHeader
| ErrDecode
| ErrCSVQuote
| ErrFieldCount.

Inductive Result (A : Type) :=
| Ok (a : A)
| Err (e : ReadError).
Arguments Ok {A} a.
Arguments Err {A} e.

(** ** Extract and transform (main.go, "Extract", "Transform") *)

(** The stand-in collector: after the simulated delay, which is shorter
    than its timeout, it returns these fixed readings. *)
Definition extractCpuData (ap : Appliance) (now : Z) : CpuStats :=
  {| cpu_Name := HostName ap;
     cpu_Timestamp := now;
     cpu_CPUNumber := "0";
     PIdle := "95";
     PUser := "3";
     PSys := "1";
     PIRQ := "0.5";
     PNice := "0" |}.

Section Program.

Context (L : GoLib) (E : Env) (cfg : Config).

(** [x, _ := strconv.ParseFloat(s, 64)]: the value, the error dropped. *)
Definition parsed (s : string) : float64 := fst (ParseFloat L s).

Definition transform (cpu : CpuStats) : DeviceData :=
  let idle := parsed (PIdle cpu) in
  let pNice := parsed (PNice cpu) in
  let pUser := parsed (PUser cpu) in
  let pSys := parsed (PSys cpu) in
  let pIRQ := parsed (PIRQ cpu) in
  let indicators :=
    [ mkIndicator "utilization" (float64_sub (float64_of_Z 100) idle);
      mkIndicator "nice" pNice;
      mkIndicator "user" pUser;
      mkIndicator "system" pSys;
      mkIndicator "irq" pIRQ ] in
  {| Name := cpu_Name cpu;
     CPUNumber := cpu_CPUNumber cpu;
     Timestamp := cpu_Timestamp cpu;
     Indicators := indicators |}.

(** [targetWorker := index % loadWorkers]; Go's [%] truncates as [Z.rem]. *)
Definition targetWorker (index : Z) : Z := Z.rem index (Z.of_nat (loadWorkers cfg)).

(** ** Send to API (main.go, sendToAPI)

    [http.NewRequest] cannot fail on the constant method and URL.  The
    error of [json.Marshal] is dropped: the payload is then empty. *)

Definition is2xx (status : Z) : bool := (200 <=? status) && (status <=? 299).

(** [payload, _ := json.Marshal(data)] *)
Definition payload_of (data : list DeviceData) : string :=
  match json_Marshal L data with Some p => p | None => "" end.

(** What [sendToAPI] reports as an error: no response at all, or a status
    outside 200..299. *)
Definition http_failed (r : HttpResult) : bool :=
  match r with
  | NetError => true
  | Response status _ => negb (is2xx status)
  end.

Definition sendToAPI (data : list DeviceData) (s : Sys) : option SendError * Sys :=
  let payload := payload_of data in
  let resp := endpoint E (requests s) payload in
  let s' := {| files := files s; requests := requests s ++ [payload]; logs := logs s |} in
  match resp with
  | NetError => (Some ErrTransport, s')
  | Response status body =>
      if is2xx status then (None, s') else (Some (ErrAPI body), s')
  end.

(** ** Buffer save (main.go, saveBufferToFile)

    [os.Create] truncates or creates the file.  [Encode] writes the value
    and a line feed; when it fails nothing has been written, and closing
    the gzip writer still leaves an empty gzip stream in the file. *)

Definition saveBufferToFile (data : list DeviceData) (filename : string) (s : Sys) : Sys :=
  let path := filename +:+ ".json.gz" in
  if create_ok E path then
    match json_Marshal L data with
    | Some p =>
        {| files := <[path := gzip_compress L (p +:+ newline)]> (files s);
           requests := requests s; logs := logs s |}
    | None =>
        log_Printf LogEncodeFailed
          {| files := <[path := gzip_compress L ""]> (files s);
             requests := requests s; logs := logs s |}
    end
  else log_Printf LogCreateFailed s.

(** ** Load worker (main.go, flushBuffer and loadWorker) *)

Definition flushBuffer (buffer : Buffer) (workerID : Z) (s : Sys) : Buffer * Sys :=
  let toSend := Data buffer in
  let '(err, s1) := sendToAPI toSend s in
  let s2 :=
    match err with
    | Some _ =>
        saveBufferToFile toSend (failedBufferName workerID)
          (log_Printf (LogApiLoadFailed workerID) s1)
    | None => log_Printf (LogFlushed workerID (length toSend)) s1
    end in
  ({| Data := [] |}, s2).

(** One turn of [for item := range ch]. *)
Definition loadWorker_step (workerID : Z) (st : Buffer * Sys) (item : DeviceData)
  : Buffer * Sys :=
  let '(buffer, s) := st in
  let buffer := {| Data := Data buffer ++ [item] |} in
  if (bufferThreshold cfg <=? length (Data buffer))%nat
  then flushBuffer buffer workerID s
  else (buffer, s).

(** The final flush, once the channel is closed and drained. *)
Definition loadWorker_final (workerID : Z) (st : Buffer * Sys) : Buffer * Sys :=
  let '(buffer, s) := st in
  if (0 <? length (Data buffer))%nat then flushBuffer buffer workerID s
  else (buffer, s).

(** A load worker that receives [items] from its channel before the channel
    is closed. *)
Definition loadWorker_run (workerID : Z) (items : list DeviceData) (st : Buffer * Sys)
  : Buffer * Sys :=
  loadWorker_final workerID (fold_left (loadWorker_step workerID) items st).

(** [loadWorker] on the global [buffers]; indexing past the slice panics
    ([None]). *)
Definition loadWorker (workerID : nat) (items : list DeviceData)
  (buffers : list Buffer) (s : Sys) : option (list Buffer * Sys) :=
  match buffers !! workerID with
  | None => None
  | Some buffer =>
      let '(buffer', s') := loadWorker_run (Z.of_nat workerID) items (buffer, s) in
      Some (<[workerID := buffer']> buffers, s')
  end.

(** ** Failed buffer loader (main.go, readBufferFromFile, loadFailedBuffers) *)

Definition readBufferFromFile (filePath : string) (s : Sys) : Result (list DeviceData) :=
  match files s !! filePath with
  | None => Err ErrOpen
  | Some content =>
      match gzip_decompress L content with
      | None => Err ErrGzipHeader
      | Some raw =>
          match json_Decode L raw with
          | Some data => Ok data
          | None => Err ErrDecode
          end
      end
  end.

End Program.

(** A lane queue: a buffered channel.  While the failed buffers are loaded
    no load worker runs, so nothing is received from it. *)
Record Chan := mkChan {
  ch_cap : nat;
  ch_queue : list DeviceData
}.

(** [initBuffers] and [initChannels]. *)
Definition initBuffers (count : nat) : list Buffer := replicate count {| Data := [] |}.
Definition initChannels (cfg : Config) (count : nat) : list Chan :=
  replicate count {| ch_cap := chanCapacity cfg; ch_queue := [] |}.

(** [ch <- x] with no receiver: the value is queued when there is room;
    otherwise the sender blocks ([None]). *)
Definition chan_send (ch : Chan) (x : DeviceData) : option Chan :=
  if (length (ch_queue ch) <? ch_cap ch)%nat
  then Some {| ch_cap := ch_cap ch; ch_queue := ch_queue ch ++ [x] |}
  else None.

(** [dataChan[workerID]]: [None] when the index is out of range, where Go
    panics. *)
Definition lane (dataChan : list Chan) (workerID : Z) : option Chan :=
  if workerID <? 0 then None else dataChan !! Z.to_nat workerID.

Inductive Outcome :=
| Finished
| Panicked      (* index out of range *)
| Blocked.      (* send on a full channel that nobody drains *)

(** [for _, data := range dataList { dataChan[workerID] <- data }] *)
Fixpoint enqueueAll (workerID : Z) (dataList : list DeviceData) (dataChan : list Chan)
  : Outcome * list Chan :=
  match dataList with
  | [] => (Finished, dataChan)
  | data :: rest =>
      match lane dataChan workerID with
      | None => (Panicked, dataChan)
      | Some ch =>
          match chan_send ch data with
          | None => (Blocked, dataChan)
          | Some ch' => enqueueAll workerID rest (<[Z.to_nat workerID := ch']> dataChan)
          end
      end
  end.

(** [filepath.Match "buffer_failed_worker*.json.gz"]: the star stands for
    any run of bytes other than the path separator. *)
Fixpoint strip_prefix (pre s : string) : option string :=
  match pre, s with
  | EmptyString, _ => Some s
  | String a pre', String b s' => if Ascii.eqb a b then strip_prefix pre' s' else None
  | String _ _, EmptyString => None
  end.

Definition glob_match (name : string) : bool :=
  match strip_prefix "buffer_failed_worker" name with
  | Some rest => HasSuffix rest ".json.gz" && negb (has_slash name)
  | None => false
  end.

(** [filepath.Glob] on the working directory: the matching names in
    lexical order. *)
Definition Glob (fs : gmap string string) : list string :=
  merge_sort String.le (filter (fun n => glob_match n = true) (elements (dom fs))).

Section Startup.

Context (L : GoLib) (E : Env).

(** [os.Remove] and the two log lines that follow it. *)
Definition removeFile (file : string) (s : Sys) : Sys :=
  if remove_ok E file
  then log_Printf (LogDeleted file)
         {| files := delete file (files s); requests := requests s; logs := logs s |}
  else log_Printf (LogDeleteFailed file) s.

(** The body of [for _, file := range files]. *)
Definition loadFailedBuffer (file : string) (st : list Chan * Sys)
  : Outcome * (list Chan * Sys) :=
  let '(dataChan, s) := st in
  let s := log_Printf (LogReloading file) s in
  match readBufferFromFile L file s with
  | Err _ => (Finished, (dataChan, log_Printf (LogReadFailed file) s))
  | Ok dataList =>
      let workerID := extractWorkerID file in
      match enqueueAll workerID dataList dataChan with
      | (Finished, dataChan') => (Finished, (dataChan', removeFile file s))
      | (o, dataChan') => (o, (dataChan', s))
      end
  end.

Fixpoint loadFailedBuffers_loop (fileList : list string) (st : list Chan * Sys)
  : Outcome * (list Chan * Sys) :=
  match fileList with
  | [] => (Finished, st)
  | file :: rest =>
      match loadFailedBuffer file st with
      | (Finished, st') => loadFailedBuffers_loop rest st'
      | stop => stop
      end
  end.

(** The pattern is well formed, so [Glob] itself does not fail. *)
Definition loadFailedBuffers (st : list Chan * Sys) : Outcome * (list Chan * Sys) :=
  loadFailedBuffers_loop (Glob (files (snd st))) st.

(** ** CSV reader (main.go, readAppliancesFromCSV) *)

(** [csv.Reader.ReadAll] with the reader [csv.NewReader] returns, whose
    [FieldsPerRecord] is 0: "Read sets it to the number of fields in the
    first record, so that future records must have the same field
    count". *)
Definition csv_ReadAll (text : string) : Result (list (list string)) :=
  match csv_records L text with
  | None => Err ErrCSVQuote
  | Some [] => Ok []
  | Some (first :: rest) =>
      if forallb (fun rec => (length rec =? length first)%nat) rest
      then Ok (first :: rest)
      else Err ErrFieldCount
  end.

(** [for i, rec := range records] *)
Fixpoint readAppliances_loop (i : nat) (records : list (list string))
  (appliances : list Appliance) (s : Sys) : list Appliance * Sys :=
  match records with
  | [] => (appliances, s)
  | rec :: rest =>
      if (length rec <? 2)%nat then
        readAppliances_loop (S i) rest appliances
          (log_Printf (LogSkippingInvalidLine (i + 1)) s)
      else
        readAppliances_loop (S i) rest
          (appliances ++ [ {| IP := nth 0 rec ""; HostName := nth 1 rec "" |} ]) s
  end.

Definition readAppliancesFromCSV (filePath : string) (s : Sys)
  : Result (list Appliance) * Sys :=
  match files s !! filePath with
  | None => (Err ErrOpen, s)
  | Some text =>
      match csv_ReadAll text with
      | Err e => (Err e, s)
      | Ok records =>
          let '(appliances, s') := readAppliances_loop 0 records [] s in
          (Ok appliances, s')
      end
  end.

End Startup.


(** ** The extraction loop of [main] as a transition system

    [main] pushes a token into the channel [sem], of capacity
    [extractWorkers], before it starts the goroutine of the next appliance;
    the goroutine takes a token out again in its deferred function.  A state
    records how far the [for] loop has come and, for each appliance by
    position, how far its goroutine has. *)

Inductive Phase :=
| NotStarted      (* the loop has not reached the appliance *)
| Extracting      (* in [extractCpuData] *)
| Sending         (* transformed; at [dataChan[targetWorker] <- deviceData] *)
| Exiting         (* body done, deferred function not yet run *)
| Released        (* [<-sem] done, [extractWg.Done()] not yet *)
| Returned.

Record Sched := mkSched {
  sc_next : nat;                      (* [idx] of the next iteration *)
  sc_holding : bool;                  (* past [sem <- struct{}{}], before [go] *)
  sc_sem : nat;                       (* tokens in [sem] *)
  sc_wg : nat;                        (* counter of [extractWg] *)
  sc_phases : list Phase;
  sc_enqueued : list (nat * Z)        (* position and lane of each record sent *)
}.

Inductive Action :=
| Acquire                 (* [sem <- struct{}{}] *)
| Spawn                   (* [extractWg.Add(1)]; [go func(...)] *)
| ExtractOk (i : nat)
| ExtractFail (i : nat)   (* logs and returns *)
| Enqueue (i : nat)
| Release (i : nat)       (* [<-sem] *)
| Done (i : nat).         (* [extractWg.Done()] *)

Definition sched_init (n : nat) : Sched :=
  {| sc_next := 0; sc_holding := false; sc_sem := 0; sc_wg := 0;
     sc_phases := replicate n NotStarted; sc_enqueued := [] |}.

Definition Phase_eqb (p q : Phase) : bool :=
  match p, q with
  | NotStarted, NotStarted | Extracting, Extracting | Sending, Sending
  | Exiting, Exiting | Released, Released | Returned, Returned => true
  | _, _ => false
  end.

(** The goroutine of appliance [i] moves from phase [from] to phase [to]. *)
Definition advance (i : nat) (from to : Phase) (s : Sched) : option Sched :=
  match sc_phases s !! i with
  | Some p =>
      if Phase_eqb p from then
        Some {| sc_next := sc_next s; sc_holding := sc_holding s; sc_sem := sc_sem s;
                sc_wg := sc_wg s; sc_phases := <[i := to]> (sc_phases s);
                sc_enqueued := sc_enqueued s |}
      else None
  | None => None
  end.

(** [sched_do cfg a s] is the state after action [a], or [None] when [a]
    cannot happen in [s]: a send on the full [sem] waits. *)
Definition sched_do (cfg : Config) (a : Action) (s : Sched) : option Sched :=
  match a with
  | Acquire =>
      if (sc_next s <? length (sc_phases s))%nat && negb (sc_holding s)
         && (sc_sem s <? extractWorkers cfg)%nat
      then Some {| sc_next := sc_next s; sc_holding := true; sc_sem := S (sc_sem s);
                   sc_wg := sc_wg s; sc_phases := sc_phases s;
                   sc_enqueued := sc_enqueued s |}
      else None
  | Spawn =>
      if sc_holding s
      then Some {| sc_next := S (sc_next s); sc_holding := false; sc_sem := sc_sem s;
                   sc_wg := S (sc_wg s);
                   sc_phases := <[sc_next s := Extracting]> (sc_phases s);
                   sc_enqueued := sc_enqueued s |}
      else None
  | ExtractOk i => advance i Extracting Sending s
  | ExtractFail i => advance i Extracting Exiting s
  | Enqueue i =>
      match advance i Sending Exiting s with
      | Some s' =>
          Some {| sc_next := sc_next s'; sc_holding := sc_holding s'; sc_sem := sc_sem s';
                  sc_wg := sc_wg s'; sc_phases := sc_phases s';
                  sc_enqueued := sc_enqueued s' ++ [(i, targetWorker cfg (Z.of_nat i))] |}
      | None => None
      end
  | Release i =>
      match advance i Exiting Released s with
      | Some s' =>
          Some {| sc_next := sc_next s'; sc_holding := sc_holding s';
                  sc_sem := pred (sc_sem s');
                  sc_wg := sc_wg s'; sc_phases := sc_phases s';
                  sc_enqueued := sc_enqueued s' |}
      | None => None
      end
  | Done i =>
      match advance i Released Returned s with
      | Some s' =>
          Some {| sc_next := sc_next s'; sc_holding := sc_holding s'; sc_sem := sc_sem s';
                  sc_wg := pred (sc_wg s'); sc_phases := sc_phases s';
                  sc_enqueued := sc_enqueued s' |}
      | None => None
      end
  end.

Definition sched_step (cfg : Config) (s s' : Sched) : Prop :=
  exists a, sched_do cfg a s = Some s'.

(** The states some interleaving reaches from the start with [n]
    appliances. *)
Definition sched_reachable (cfg : Config) (n : nat) (s : Sched) : Prop :=
  rtc (sched_step cfg) (sched_init n) s.

(** Running a schedule given as a list of actions. *)
Fixpoint sched_run (cfg : Config) (acts : list Action) (s : Sched) : option Sched :=
  match acts with
  | [] => Some s
  | a :: rest =>
      match sched_do cfg a s with
      | Some s' => sched_run cfg rest s'
      | None => None
      end
  end.

(** An extraction task runs from the start of its goroutine until it has
    given its token back. *)
Definition holds_permit (p : Phase) : nat :=
  match p with
  | Extracting | Sending | Exiting => 1
  | _ => 0
  end.

Definition in_flight (p : Phase) : nat :=
  match p with
  | Extracting | Sending | Exiting | Released => 1
  | _ => 0
  end.

Definition phase_sum (f : Phase -> nat) (ps : list Phase) : nat :=
  foldr (fun p n => (f p + n)%nat) 0%nat ps.

Definition running_tasks (s : Sched) : nat := phase_sum holds_permit (sc_phases s).

(** The number of steps an appliance still has before it. *)
Definition phase_weight (p : Phase) : nat :=
  match p with
  | NotStarted => 6
  | Extracting => 4
  | Sending => 3
  | Exiting => 2
  | Released => 1
  | Returned => 0
  end.

Definition sched_measure (s : Sched) : nat :=
  (phase_sum phase_weight (sc_phases s) + (if sc_holding s then 0 else 1))%nat.

Definition all_returned (s : Sched) : bool :=
  forallb (fun p => Phase_eqb p Returned) (sc_phases s).


(** ** A small executable library

    [SimLib] is an instance of [GoLib] on which the program's functions can
    be run.  It is a stand-in, not the Go library: it reads plain decimal
    literals only, its wire format is a length-prefixed one instead of
    JSON, its compressor stores the data behind the gzip magic number, and
    its CSV lexer knows no quoted fields. *)

Module Sim.

Definition float64_opp (x : float64) : float64 := SFopp x.

(** Digits, an optional point, digits; at least one digit. *)
Definition decimal (body : string) : option (Z * nat) :=
  match Split body "." with
  | [i] =>
      if negb (String.eqb i "") && all_digits i
      then option_map (fun m => (m, O)) (parse_digits 0 i) else None
  | [i; f] =>
      if negb (String.eqb (i +:+ f) "") && all_digits i && all_digits f
      then option_map (fun m => (m, String.length f)) (parse_digits 0 (i +:+ f))
      else None
  | _ => None
  end.

Definition is_nan_word (s : string) : bool :=
  String.eqb s "NaN" || String.eqb s "nan" || String.eqb s "NAN".

Definition is_inf_word (s : string) : bool :=
  String.eqb s "Inf" || String.eqb s "inf" || String.eqb s "Infinity"
  || String.eqb s "infinity".

Definition ParseFloat (s : string) : float64 * option NumError :=
  if is_nan_word s then (S754_nan, None)
  else
    let '(neg, body) :=
      match s with
      | String c r =>
          if Ascii.eqb c "-" then (true, r)
          else if Ascii.eqb c "+" then (false, r)
          else (false, s)
      | EmptyString => (false, s)
      end in
    if is_inf_word body then (S754_infinity neg, None)
    else
      match decimal body with
      | Some (m, k) =>
          let v := float64_div (float64_of_Z m) (float64_of_Z (10 ^ Z.of_nat k)) in
          (if neg then float64_opp v else v, None)
      | None => (float64_zero, Some ErrSyntax)
      end.

(** *** Wire format: writers *)

Definition wr_nat (n : Z) : string := utoa n +:+ ":".
Definition wr_str (s : string) : string := wr_nat (Z.of_nat (String.length s)) +:+ s.
Definition wr_bool (b : bool) : string := if b then "1" else "0".
Definition wr_int (z : Z) : string := wr_bool (z <? 0) +:+ wr_nat (Z.abs z).

Definition wr_float (x : float64) : string :=
  match x with
  | S754_zero s => "z" +:+ wr_bool s
  | S754_infinity s => "i" +:+ wr_bool s
  | S754_nan => "n"
  | S754_finite s m e => "f" +:+ wr_bool s +:+ wr_nat (Zpos m) +:+ wr_int e
  end.

Fixpoint wr_all {A} (wr : A -> string) (l : list A) : string :=
  match l with
  | [] => ""
  | x :: l' => wr x +:+ wr_all wr l'
  end.

Definition wr_list {A} (wr : A -> string) (l : list A) : string :=
  wr_nat (Z.of_nat (length l)) +:+ wr_all wr l.

Definition wr_indicator (i : Indicator) : string :=
  wr_str (ind_Name i) +:+ wr_float (ind_Value i).

Definition wr_record (d : DeviceData) : string :=
  wr_str (Name d) +:+ wr_str (CPUNumber d) +:+ wr_nat (Timestamp d)
  +:+ wr_list wr_indicator (Indicators d).

Definition json_Marshal (ds : list DeviceData) : option string :=
  if json_supported ds then Some (wr_list wr_record ds) else None.

(** *** Wire format: readers *)

Definition Reader (A : Type) : Type := string -> option (A * string).

Fixpoint rd_nat_go (acc : Z) (seen : bool) (s : string) : option (Z * string) :=
  match s with
  | EmptyString => None
  | String c r =>
      if Ascii.eqb c ":" then (if seen then Some (acc, r) else None)
      else if is_digit c then rd_nat_go (10 * acc + digit_val c) true r
      else None
  end.

Definition rd_nat : Reader Z := rd_nat_go 0 false.

Fixpoint rd_take (n : nat) (s : string) : option (string * string) :=
  match n with
  | O => Some (EmptyString, s)
  | S n' =>
      match s with
      | EmptyString => None
      | String c r =>
          match rd_take n' r with
          | Some (a, rest) => Some (String c a, rest)
          | None => None
          end
      end
  end.

Definition rd_str : Reader string :=
  fun s =>
    match rd_nat s with
    | Some (n, r) => rd_take (Z.to_nat n) r
    | None => None
    end.

Definition rd_bool : Reader bool :=
  fun s =>
    match s with
    | String c r =>
        if Ascii.eqb c "1" then Some (true, r)
        else if Ascii.eqb c "0" then Some (false, r)
        else None
    | EmptyString => None
    end.

Definition rd_int : Reader Z :=
  fun s =>
    match rd_bool s with
    | Some (neg, r) =>
        match rd_nat r with
        | Some (n, r') => Some (if neg then - n else n, r')
        | None => None
        end
    | None => None
    end.

Definition rd_float : Reader float64 :=
  fun s =>
    match s with
    | String c r =>
        if Ascii.eqb c "z" then
          match rd_bool r with Some (b, r') => Some (S754_zero b, r') | None => None end
        else if Ascii.eqb c "i" then
          match rd_bool r with Some (b, r') => Some (S754_infinity b, r') | None => None end
        else if Ascii.eqb c "n" then Some (S754_nan, r)
        else if Ascii.eqb c "f" then
          match rd_bool r with
          | Some (b, r1) =>
              match rd_nat r1 with
              | Some (Zpos m, r2) =>
                  match rd_int r2 with
                  | Some (e, r3) => Some (S754_finite b m e, r3)
                  | None => None
                  end
              | _ => None
              end
          | None => None
          end
        else None
    | EmptyString => None
    end.

Fixpoint rd_many {A} (rd : Reader A) (n : nat) (s : string) : option (list A * string) :=
  match n with
  | O => Some ([], s)
  | S n' =>
      match rd s with
      | Some (x, r) =>
          match rd_many rd n' r with
          | Some (l, r') => Some (x :: l, r')
          | None => None
          end
      | None => None
      end
  end.

Definition rd_list {A} (rd : Reader A) : Reader (list A) :=
  fun s =>
    match rd_nat s with
    | Some (n, r) => rd_many rd (Z.to_nat n) r
    | None => None
    end.

Definition rd_indicator : Reader Indicator :=
  fun s =>
    match rd_str s with
    | Some (n, r) =>
        match rd_float r with
        | Some (v, r') => Some (mkIndicator n v, r')
        | None => None
        end
    | None => None
    end.

Definition rd_record : Reader DeviceData :=
  fun s =>
    match rd_str s with
    | Some (n, r1) =>
        match rd_str r1 with
        | Some (c, r2) =>
            match rd_nat r2 with
            | Some (t, r3) =>
                match rd_list rd_indicator r3 with
                | Some (l, r4) => Some (mkDeviceData n c t l, r4)
                | None => None
                end
            | None => None
            end
        | None => None
        end
    | None => None
    end.

(** The first value of the stream; what follows it is not looked at. *)
Definition json_Decode (s : string) : option (list DeviceData) :=
  match rd_list rd_record s with
  | Some (ds, _) => Some ds
  | None => None
  end.

(** *** gzip and CSV *)

Definition gzip_magic : string :=
  String (ascii_of_nat 31) (String (ascii_of_nat 139) EmptyString).

Definition gzip_compress (b : string) : string := gzip_magic +:+ b.

Definition gzip_decompress (b : string) : option string :=
  strip_prefix gzip_magic b.

Definition quote : ascii := ascii_of_nat 34.

Definition has_quote (s : string) : bool :=
  negb (string_forall (fun c => negb (Ascii.eqb c quote)) s).

(** One record per non-empty line, fields between commas. *)
Definition csv_records (text : string) : option (list (list string)) :=
  if has_quote text then None
  else
    Some (map (fun line => Split line ",")
            (filter (fun line => line <> "") (Split text newline))).

End Sim.

Definition SimLib : GoLib :=
  {| ParseFloat := Sim.ParseFloat;
     json_Marshal := Sim.json_Marshal;
     json_Decode := Sim.json_Decode;
     gzip_compress := Sim.gzip_compress;
     gzip_decompress := Sim.gzip_decompress;
     csv_records := Sim.csv_records |}.


(** ** Sample inputs *)

Module Samples.

Definition appliance1 : Appliance := {| IP := "10.0.0.1"; HostName := "edge-1" |}.

(** What the stand-in collector and [transform] produce for it. *)
Definition record1 : DeviceData :=
  transform SimLib (extractCpuData appliance1 1700000000).

(** A record without indicators. *)
Definition record0 : DeviceData :=
  {| Name := "edge-0"; CPUNumber := "0"; Timestamp := 1700000000; Indicators := [] |}.

(** A reading whose idle field is the text NaN. *)
Definition cpu_nan : CpuStats :=
  {| cpu_Name := "edge-2"; cpu_Timestamp := 1700000000; cpu_CPUNumber := "0";
     PIdle := "NaN"; PUser := "3"; PSys := "1"; PIRQ := "0.5"; PNice := "0" |}.

Definition record_nan : DeviceData := transform SimLib cpu_nan.


Definition sys_empty : Sys := {| files := ∅; requests := []; logs := [] |}.

(** The endpoint answers every request with status 200. *)
Definition env_ok : Env :=
  {| endpoint := fun _ _ => Response 200 "{}";
     create_ok := fun _ => true; remove_ok := fun _ => true |}.

(** The endpoint answers every request with status 500. *)
Definition env_500 : Env :=
  {| endpoint := fun _ _ => Response 500 "internal error";
     create_ok := fun _ => true; remove_ok := fun _ => true |}.

(** The endpoint cannot be reached. *)
Definition env_down : Env :=
  {| endpoint := fun _ _ => NetError;
     create_ok := fun _ => true; remove_ok := fun _ => true |}.

(** Status 500 and a working directory that is not writable. *)
Definition env_500_readonly : Env :=
  {| endpoint := fun _ _ => Response 500 "internal error";
     create_ok := fun _ => false; remove_ok := fun _ => false |}.

(** The working directory a run leaves behind when the flush of [data] by
    lane [workerID] failed. *)
Definition disk_after_failed_flush (workerID : Z) (data : list DeviceData) : Sys :=
  {| files := files (snd (flushBuffer SimLib env_500 {| Data := data |} workerID sys_empty));
     requests := []; logs := [] |}.

(** A directory with one file that is not a gzip stream. *)
Definition disk_corrupt : Sys :=
  {| files := {[ "buffer_failed_worker1.json.gz" := "not a gzip stream" ]};
     requests := []; logs := [] |}.

(** An appliance list with a malformed second line. *)
Definition csv_text : string :=
  "10.0.0.1,edge-1" +:+ newline +:+ "badrow" +:+ newline
  +:+ "10.0.0.2,edge-2" +:+ newline.

Definition disk_csv : Sys :=
  {| files := {[ "appliances.csv" := csv_text ]}; requests := []; logs := [] |}.

(** An appliance list in which every line has one column. *)
Definition disk_csv_narrow : Sys :=
  {| files := {[ "appliances.csv" := "edge-1" +:+ newline +:+ "edge-2" +:+ newline ]};
     requests := []; logs := [] |}.

(** The lane queues as [main] creates them. *)
Definition lanes0 : list Chan := initChannels sourceConfig (loadWorkers sourceConfig).

End Samples.

(** What holds in every state of the extraction loop. *)
Record sched_inv (cfg : Config) (s : Sched) : Prop := mkSchedInv {
  inv_next : (sc_next s <= length (sc_phases s))%nat;
  inv_started : forall i p,
    sc_phases s !! i = Some p -> (p = NotStarted <-> (sc_next s <= i)%nat);
  inv_sem : sc_sem s = (running_tasks s + (if sc_holding s then 1 else 0))%nat;
  inv_cap : (sc_sem s <= extractWorkers cfg)%nat;
  inv_hold : sc_holding s = true -> (sc_next s < length (sc_phases s))%nat;
  inv_wg : sc_wg s = phase_sum in_flight (sc_phases s);
  inv_enq : forall i l,
    (i, l) ∈ sc_enqueued s -> l = targetWorker cfg (Z.of_nat i)
}.

(** A run of the extraction loop: three appliances, two permits, two lanes. *)
Module SchedSamples.

Definition cfg_small : Config :=
  {| bufferThreshold := 2; extractWorkers := 2; loadWorkers := 2; chanCapacity := 2000 |}.

(** The loop starts two goroutines and then waits for a token; the second
    goroutine finishes first. *)
Definition schedule1 : list Action :=
  [ Acquire; Spawn; Acquire; Spawn;
    ExtractOk 1; Enqueue 1; ExtractOk 0; Release 1;
    Acquire; Spawn; Done 1; Enqueue 0; ExtractFail 2 ].

Definition state1 : Sched :=
  match sched_run cfg_small schedule1 (sched_init 3) with
  | Some s => s
  | None => sched_init 3
  end.

End SchedSamples.

(** ** Further definitions

    [chunks n l] cuts [l] into consecutive pieces of [n] elements, the last
    one holding what is left; it is used to say what a load worker sends. *)

Fixpoint chunks_fuel {A} (fuel n : nat) (l : list A) : list (list A) :=
  match fuel with
  | O => []
  | S f =>
      match l with
      | [] => []
      | _ :: _ => take n l :: chunks_fuel f n (drop n l)
      end
  end.

Definition chunks {A} (n : nat) (l : list A) : list (list A) :=
  chunks_fuel (length l) n l.

(** What more holds of the records sent in every state of the extraction
    loop: a record is sent by a goroutine that has left [Sending], and by
    each goroutine once. *)
Definition sent_phase (p : Phase) : bool :=
  match p with
  | Exiting | Released | Returned => true
  | _ => false
  end.

Record sched_sent_inv (s : Sched) : Prop := mkSchedSentInv {
  sent_after : forall i l,
    (i, l) ∈ sc_enqueued s ->
    exists p, sc_phases s !! i = Some p /\ sent_phase p = true;
  sent_once : NoDup (map fst (sc_enqueued s))
}.

(** ** Resource report (main.go, bToMb)

    [b] is a [uint64]; both divisions are integer divisions. *)
Definition bToMb (b : Z) : Z := b / 1024 / 1024.

(** ** The mock ingestion server (mock-load-api-server) *)

Module MockServer.

Record Request := mkRequest {
  rq_method : string;
  rq_path : string;
  rq_body : string
}.

Record Reply := mkReply {
  rp_status : Z;
  rp_contentType : string;
  rp_body : string
}.

Definition StatusOK : Z := 200.
Definition StatusNotFound : Z := 404.

(** The first [n] bytes of [s]: [s[:n]] for [n] within the length. *)
Fixpoint string_take (n : nat) (s : string) : string :=
  match n, s with
  | S n', String c s' => String c (string_take n' s')
  | _, _ => EmptyString
  end.

(** [previewBody]: [max] is an [int]; for a negative [max] the slice
    expression [body[:max]] panics ([None]). *)
Definition previewBody (body : string) (max : Z) : option string :=
  if Z.of_nat (String.length body) <=? max then Some body
  else if max <? 0 then None
  else Some (string_take (Z.to_nat max) body +:+ "...(truncated)").

Definition dquote : string := String (ascii_of_nat 34) EmptyString.

(** The JSON text with the single member "status". *)
Definition status_json (value : string) : string :=
  "{" +:+ dquote +:+ "status" +:+ dquote +:+ ":" +:+ dquote +:+ value +:+ dquote +:+ "}".

Definition handleHealth : Reply :=
  {| rp_status := StatusOK; rp_contentType := "application/json";
     rp_body := status_json "ok" |}.

(** [handleLoad] writes two log lines and answers 200 whatever the body
    is. *)
Definition handleLoad (req : Request) (log : list string) : option (Reply * list string) :=
  let body := rq_body req in
  let bodySize := Z.of_nat (String.length body) in
  match previewBody body 500 with
  | None => None
  | Some preview =>
      Some ({| rp_status := StatusOK; rp_contentType := "application/json";
               rp_body := status_json "success" |},
            log ++ [ "Received POST /load with size " +:+ Itoa bodySize +:+ " bytes";
                     "Body Preview: " +:+ preview ])
  end.

(** [ctx.Error(msg, code)] of fasthttp: status, plain-text content type and
    the message as body. *)
Definition ctx_Error (msg : string) (code : Z) : Reply :=
  {| rp_status := code; rp_contentType := "text/plain; charset=utf-8"; rp_body := msg |}.

(** The request router of [main]. *)
Definition requestHandler (req : Request) (log : list string)
  : option (Reply * list string) :=
  if String.eqb (rq_path req) "/load" && String.eqb (rq_method req) "POST"
  then handleLoad req log
  else if String.eqb (rq_path req) "/health" && String.eqb (rq_method req) "GET"
  then Some (handleHealth, log)
  else Some (ctx_Error "Unsupported path" StatusNotFound, log).

(** The request [sendToAPI] makes: a POST to the path /load of
    [apiEndpoint]. *)
Definition load_request (payload : string) : Request :=
  {| rq_method := "POST"; rq_path := "/load"; rq_body := payload |}.

(** The mock server as the endpoint of the pipeline; a handler that panics
    gives no response. *)
Definition endpoint (_ : list string) (payload : string) : HttpResult :=
  match requestHandler (load_request payload) [] with
  | Some (reply, _) => Response (rp_status reply) (rp_body reply)
  | None => NetError
  end.

End MockServer.

(** The pipeline run against the mock server, on a writable directory. *)
Definition env_mock : Env :=
  {| endpoint := MockServer.endpoint;
     create_ok := fun _ => true; remove_ok := fun _ => true |}.

(** Two relations between the states before and after the loading of
    failed buffers: the lanes are the same in number and capacity and each
    queue has only grown at its end; no request was sent and the files left
    are files that were there, with their contents. *)
Definition lanes_extend (dataChan dataChan' : list Chan) : Prop :=
  length dataChan' = length dataChan /\
  forall i ch, dataChan !! i = Some ch ->
    exists ch', dataChan' !! i = Some ch' /\ ch_cap ch' = ch_cap ch /\
                ch_queue ch `prefix_of` ch_queue ch'.

Definition sys_shrinks (s s' : Sys) : Prop :=
  requests s' = requests s /\
  forall p c, files s' !! p = Some c -> files s !! p = Some c.

(** The sample run carried on to its end. *)
Definition schedule_done : list Action :=
  SchedSamples.schedule1 ++ [ Release 0; Done 0; Release 2; Done 2 ].

Definition state_done : Sched :=
  match sched_run SchedSamples.cfg_small schedule_done (sched_init 3) with
  | Some s => s
  | None => sched_init 3
  end.


(** * Properties *)

(** ** Facts about the string functions *)

Section StringFacts.

Lemma string_app_cons (c : ascii) (a b : string) :
  String c a +:+ b = String c (a +:+ b).
Proof. reflexivity. Qed.

Lemma string_app_nil_l (b : string) : "" +:+ b = b.
Proof. reflexivity. Qed.

Lemma string_length_app (a b : string) :
  String.length (a +:+ b) = (String.length a + String.length b)%nat.
Proof.
  induction a as [|c a IH]; [reflexivity|].
  rewrite string_app_cons. simpl. now rewrite IH.
Qed.

Lemma string_app_nil_r (a : string) : a +:+ "" = a.
Proof.
  induction a as [|c a IH]; [reflexivity|].
  now rewrite string_app_cons, IH.
Qed.

Lemma string_app_assoc (a b c : string) : (a +:+ b) +:+ c = a +:+ (b +:+ c).
Proof.
  induction a as [|x a IH]; [reflexivity|].
  now rewrite !string_app_cons, IH.
Qed.

Lemma trim_suffix_opt_app (a suf : string) :
  trim_suffix_opt (a +:+ suf) suf = Some a.
Proof.
  induction a as [|c a IH].
  - rewrite string_app_nil_l.
    destruct suf; simpl; now rewrite ?String.eqb_refl, ?Ascii.eqb_refl.
  - rewrite string_app_cons. cbn [trim_suffix_opt].
    assert (Hne : String.eqb (String c (a +:+ suf)) suf = false).
    { apply String.eqb_neq. intros E.
      apply (f_equal String.length) in E. cbn in E.
      rewrite string_length_app in E. lia. }
    rewrite Hne, IH. reflexivity.
Qed.

Lemma TrimSuffix_app (a suf : string) : TrimSuffix (a +:+ suf) suf = a.
Proof. unfold TrimSuffix. now rewrite trim_suffix_opt_app. Qed.

Lemma trim_suffix_opt_Some (s suf a : string) :
  trim_suffix_opt s suf = Some a -> s = a +:+ suf.
Proof.
  revert a. induction s as [|c s IH]; intros a; cbn [trim_suffix_opt].
  - destruct (String.eqb_spec "" suf) as [<-|]; [|discriminate].
    now intros [= <-].
  - destruct (String.eqb_spec (String c s) suf) as [<-|_].
    + now intros [= <-].
    + destruct (trim_suffix_opt s suf) as [a'|] eqn:E; [|discriminate].
      intros [= <-]. rewrite string_app_cons. f_equal. now apply IH.
Qed.

Lemma has_slash_app (a b : string) :
  has_slash (a +:+ b) = has_slash a || has_slash b.
Proof.
  induction a as [|c a IH]; [reflexivity|].
  rewrite string_app_cons. simpl. rewrite IH. now rewrite orb_assoc.
Qed.

Lemma all_slashes_no_slash (s : string) :
  has_slash s = false -> s <> "" -> all_slashes s = false.
Proof.
  destruct s as [|c s]; [congruence|]. simpl.
  intros H _. apply orb_false_elim in H as [-> _]. reflexivity.
Qed.

Lemma strip_trailing_slashes_id (s : string) :
  has_slash s = false -> strip_trailing_slashes s = s.
Proof.
  induction s as [|c s IH]; [reflexivity|].
  intros H. cbn [strip_trailing_slashes].
  rewrite all_slashes_no_slash by (auto; discriminate).
  simpl in H. apply orb_false_elim in H as [_ H]. now rewrite IH.
Qed.

Lemma after_last_slash_id (s : string) :
  has_slash s = false -> after_last_slash s = s.
Proof.
  destruct s as [|c s]; [reflexivity|].
  simpl. intros H. apply orb_false_elim in H as [-> ->]. reflexivity.
Qed.

(** A relative name without directory part is its own base name. *)
Lemma Base_plain (s : string) :
  has_slash s = false -> s <> "" -> Base s = s.
Proof.
  intros Hs Hne. unfold Base.
  rewrite (proj2 (String.eqb_neq s "")) by assumption.
  rewrite strip_trailing_slashes_id, after_last_slash_id by assumption.
  now rewrite (proj2 (String.eqb_neq s "")).
Qed.

(** [Split] yields one piece more than there are separators. *)
Lemma split_go_length (sep : string) (s : string) :
  forall skip cur,
    List.length (split_go sep skip cur s) = S (count_go sep skip s).
Proof.
  induction s as [|c s IH]; intros skip cur; [reflexivity|].
  cbn [split_go count_go]. destruct skip as [|k]; [|apply IH].
  destruct (String.prefix sep (String c s)); cbn [List.length]; now rewrite IH.
Qed.

Lemma Split_length (s sep : string) :
  List.length (Split s sep) = S (Count s sep).
Proof. apply split_go_length. Qed.

Lemma string_forall_app P (a b : string) :
  string_forall P (a +:+ b) = string_forall P a && string_forall P b.
Proof.
  induction a as [|c a IH]; [reflexivity|].
  rewrite string_app_cons. simpl. now rewrite IH, andb_assoc.
Qed.

Lemma string_forall_impl (P Q : ascii -> bool) (s : string) :
  (forall c, P c = true -> Q c = true) ->
  string_forall P s = true -> string_forall Q s = true.
Proof.
  intros HPQ. induction s as [|c s IH]; simpl; [reflexivity|].
  intros H. apply andb_prop in H as [Hc Hs].
  now rewrite (HPQ _ Hc), IH.
Qed.

(** A string that never shows the first byte of the separator is a single
    piece. *)
Lemma split_go_no_first (c0 : ascii) (sep' s : string) :
  string_forall (fun c => negb (Ascii.eqb c c0)) s = true ->
  forall cur, split_go (String c0 sep') O cur s = [cur +:+ s].
Proof.
  induction s as [|c s IH]; intros H cur.
  - simpl. now rewrite string_app_nil_r.
  - simpl in H. apply andb_prop in H as [Hc Hs].
    cbn [split_go String.prefix].
    destruct (ascii_dec c0 c) as [->|_].
    + now rewrite Ascii.eqb_refl in Hc.
    + rewrite IH by assumption.
      now rewrite string_app_assoc, string_app_cons, string_app_nil_l.
Qed.

Lemma has_slash_forall (s : string) :
  string_forall (fun c => negb (Ascii.eqb c slash)) s = true ->
  has_slash s = false.
Proof.
  induction s as [|c s IH]; simpl; [reflexivity|].
  intros H. apply andb_prop in H as [Hc Hs].
  rewrite IH by assumption. now destruct (Ascii.eqb c slash).
Qed.

End StringFacts.


(** ** Facts about strconv *)

Section StrconvFacts.

Lemma digit_char_ok (d : Z) :
  0 <= d < 10 -> is_digit (digit_char d) = true /\ digit_val (digit_char d) = d.
Proof.
  intros H.
  assert (E : d = 0 \/ d = 1 \/ d = 2 \/ d = 3 \/ d = 4 \/ d = 5 \/ d = 6 \/
              d = 7 \/ d = 8 \/ d = 9) by lia.
  repeat (destruct E as [->|E]; [split; reflexivity|]).
  subst d. split; reflexivity.
Qed.

Lemma parse_digits_app (s1 s2 : string) : forall acc,
  parse_digits acc (s1 +:+ s2) =
  match parse_digits acc s1 with
  | Some v => parse_digits v s2
  | None => None
  end.
Proof.
  induction s1 as [|c s1 IH]; intros acc; [reflexivity|].
  rewrite string_app_cons. cbn [parse_digits].
  destruct (is_digit c); [apply IH | reflexivity].
Qed.

Lemma parse_digits_all_digits (s : string) : forall acc,
  parse_digits acc s = None <-> all_digits s = false.
Proof.
  induction s as [|c s IH]; intros acc; cbn [parse_digits all_digits].
  - split; discriminate.
  - destruct (is_digit c); simpl; [apply IH | tauto].
Qed.

Lemma utoa_go_acc (fuel : nat) : forall n acc,
  utoa_go fuel n acc = utoa_go fuel n "" +:+ acc.
Proof.
  induction fuel as [|f IH]; intros n acc; cbn [utoa_go].
  - reflexivity.
  - destruct (n <? 10); [reflexivity|].
    rewrite IH, (IH _ (String _ "")), string_app_assoc. reflexivity.
Qed.

Lemma utoa_go_parse (fuel : nat) : forall n,
  0 <= n < 10 ^ Z.of_nat (S fuel) ->
  parse_digits 0 (utoa_go fuel n "") = Some n.
Proof.
  induction fuel as [|f IH]; intros n Hn.
  - change (10 ^ Z.of_nat 1) with 10 in Hn.
    cbn [utoa_go parse_digits].
    rewrite Z.mod_small by lia.
    destruct (digit_char_ok n Hn) as [-> ->]. f_equal; try lia.
  - cbn [utoa_go].
    assert (Hd : 0 <= n mod 10 < 10) by (apply Z.mod_pos_bound; lia).
    destruct (Z.ltb_spec n 10) as [Hlt|Hge].
    + cbn [parse_digits]. rewrite Z.mod_small by lia.
      destruct (digit_char_ok n ltac:(lia)) as [-> ->]. f_equal; try lia.
    + rewrite utoa_go_acc, parse_digits_app, IH.
      * cbn [parse_digits]. destruct (digit_char_ok _ Hd) as [-> ->].
        f_equal. pose proof (Z.div_mod n 10). lia.
      * split; [apply Z.div_pos; lia|].
        apply Z.div_lt_upper_bound; [lia|].
        replace (Z.of_nat (S (S f))) with (Z.succ (Z.of_nat (S f))) in Hn by lia.
        rewrite Z.pow_succ_r in Hn by lia. lia.
Qed.

Lemma utoa_go_digits (fuel : nat) : forall n,
  0 <= n -> all_digits (utoa_go fuel n "") = true.
Proof.
  induction fuel as [|f IH]; intros n Hn; cbn [utoa_go].
  - cbn [all_digits].
    destruct (digit_char_ok (n mod 10)) as [-> _]; [|reflexivity].
    apply Z.mod_pos_bound; lia.
  - assert (Hd : is_digit (digit_char (n mod 10)) = true).
    { apply digit_char_ok, Z.mod_pos_bound. lia. }
    destruct (n <? 10).
    + cbn [all_digits]. now rewrite Hd.
    + rewrite utoa_go_acc.
      assert (G : forall a b, all_digits a = true -> all_digits b = true ->
                    all_digits (a +:+ b) = true).
      { intros a b Ha Hb. induction a as [|x a IHa]; [exact Hb|].
        rewrite string_app_cons. cbn [all_digits] in *.
        apply andb_prop in Ha as [-> Ha]. now apply IHa. }
      apply G; [apply IH, Z.div_pos; lia|].
      cbn [all_digits]. now rewrite Hd.
Qed.

Lemma pow10_log2 (n : Z) : 0 <= n -> n < 10 ^ Z.of_nat (S (Z.to_nat (Z.log2 n))).
Proof.
  intros Hn. destruct (Z.eq_dec n 0) as [->|Hz]; [reflexivity|].
  pose proof (Z.log2_nonneg n) as Hl.
  replace (Z.of_nat (S (Z.to_nat (Z.log2 n)))) with (Z.succ (Z.log2 n)) by lia.
  pose proof (Z.log2_spec n ltac:(lia)) as [_ Hu].
  eapply Z.lt_le_trans; [exact Hu|].
  apply Z.pow_le_mono_l. lia.
Qed.

Lemma utoa_parse (n : Z) : 0 <= n -> parse_digits 0 (utoa n) = Some n.
Proof. intros Hn. apply utoa_go_parse. split; [lia | now apply pow10_log2]. Qed.

Lemma utoa_digits (n : Z) : 0 <= n -> all_digits (utoa n) = true.
Proof. intros Hn. now apply utoa_go_digits. Qed.

Lemma utoa_cons (n : Z) : exists c r, utoa n = String c r.
Proof.
  unfold utoa. generalize (Z.to_nat (Z.log2 n)) as f. intros f.
  destruct f as [|f]; cbn [utoa_go]; [eauto|].
  destruct (n <? 10); [eauto|].
  rewrite utoa_go_acc.
  destruct (utoa_go f (n / 10) "") as [|c r]; rewrite ?string_app_cons; eauto.
Qed.

Lemma is_digit_not_sign (c : ascii) :
  is_digit c = true -> Ascii.eqb c "-" = false /\ Ascii.eqb c "+" = false.
Proof.
  intros H. split; apply Ascii.eqb_neq; intros ->; discriminate H.
Qed.

(** Printing an [int] and parsing it back gives the same [int]. *)
Lemma Atoi_Itoa (k : Z) : minInt <= k <= maxInt -> Atoi (Itoa k) = (k, None).
Proof.
  unfold minInt, maxInt. intros Hk. unfold Itoa.
  destruct (Z.ltb_spec k 0) as [Hneg|Hpos].
  - unfold Atoi. rewrite Ascii.eqb_refl. unfold atoi_signed.
    destruct (utoa_cons (- k)) as (c & r & E).
    pose proof (utoa_parse (- k) ltac:(lia)) as P. rewrite E in *. rewrite P.
    destruct (Z.ltb_spec (2 ^ 63) (- k)); [lia|]. f_equal. lia.
  - destruct (utoa_cons k) as (c & r & E).
    pose proof (utoa_parse k Hpos) as P.
    pose proof (utoa_digits k Hpos) as D. rewrite E in *.
    cbn [all_digits] in D. apply andb_prop in D as [Dc _].
    destruct (is_digit_not_sign c Dc) as [E1 E2].
    unfold Atoi. rewrite E1, E2. unfold atoi_signed. rewrite P. unfold maxInt.
    destruct (Z.ltb_spec (2 ^ 63 - 1) k); [lia | reflexivity].
Qed.

Lemma Itoa_chars (k : Z) :
  string_forall (fun c => is_digit c || Ascii.eqb c "-") (Itoa k) = true.
Proof.
  assert (G : forall s, all_digits s = true ->
            string_forall (fun c => is_digit c || Ascii.eqb c "-") s = true).
  { induction s as [|c s IH]; [reflexivity|]. cbn [all_digits string_forall].
    intros H. apply andb_prop in H as [-> H]. now rewrite IH. }
  unfold Itoa. destruct (Z.ltb_spec k 0).
  - cbn [string_forall]. rewrite Ascii.eqb_refl, orb_true_r. simpl.
    apply G, utoa_digits. lia.
  - apply G, utoa_digits. lia.
Qed.

Lemma Itoa_nonempty (k : Z) : Itoa k <> "".
Proof.
  unfold Itoa. destruct (k <? 0); [discriminate|].
  destruct (utoa_cons k) as (c & r & ->). discriminate.
Qed.

Lemma atoi_signed_not_digits (neg : bool) (b : string) :
  negb (String.eqb b "") && all_digits b = false ->
  atoi_signed neg b = (0, Some ErrSyntax).
Proof.
  destruct b as [|x b]; [reflexivity|]. cbn [String.eqb negb andb].
  intros H. unfold atoi_signed.
  now apply parse_digits_all_digits with (acc := 0) in H as ->.
Qed.

Lemma atoi_signed_digits (neg : bool) (b : string) :
  negb (String.eqb b "") && all_digits b = true ->
  snd (atoi_signed neg b) <> Some ErrSyntax.
Proof.
  intros H. apply andb_prop in H as [Hb Hd].
  destruct b as [|x b]; [discriminate|]. unfold atoi_signed.
  destruct (parse_digits 0 (String x b)) as [n|] eqn:P.
  - destruct neg; [destruct (2 ^ 63 <? n) | destruct (maxInt <? n)];
      simpl; congruence.
  - apply parse_digits_all_digits in P. congruence.
Qed.

(** A string that is not an optionally signed run of digits is refused. *)
Lemma Atoi_not_numeric (s : string) :
  numeric s = false -> Atoi s = (0, Some ErrSyntax).
Proof.
  unfold numeric, Atoi.
  destruct s as [|c r]; [reflexivity|].
  destruct (Ascii.eqb c "-") eqn:E1; cbn [orb];
    [apply atoi_signed_not_digits|].
  destruct (Ascii.eqb c "+") eqn:E2; apply atoi_signed_not_digits.
Qed.

(** Conversely, [Atoi] fails on a numeric string only by range. *)
Lemma Atoi_numeric (s : string) :
  numeric s = true -> snd (Atoi s) <> Some ErrSyntax.
Proof.
  unfold numeric, Atoi.
  destruct s as [|c r]; [discriminate|].
  destruct (Ascii.eqb c "-") eqn:E1; cbn [orb];
    [apply atoi_signed_digits|].
  destruct (Ascii.eqb c "+") eqn:E2; apply atoi_signed_digits.
Qed.

End StrconvFacts.


(** ** The lane parsed from a file name *)

Section ExtractWorkerID.

Lemma failedBufferName_split (k : Z) :
  Split (failedBufferName k) "worker" = ["buffer_failed_"; Itoa k].
Proof.
  unfold Split, failedBufferName.
  assert (P : forall d, split_go "worker" 0 "" ("buffer_failed_worker" +:+ d)
                        = "buffer_failed_" :: split_go "worker" 0 "" d)
    by (intros [|c d]; reflexivity).
  rewrite P. f_equal. change "worker" with (String "w" "orker").
  rewrite split_go_no_first; [reflexivity|].
  eapply string_forall_impl; [|apply Itoa_chars].
  intros c Hc. destruct (Ascii.eqb_spec c "w") as [->|]; [discriminate Hc | reflexivity].
Qed.

Lemma failedBufferName_no_slash (k : Z) :
  has_slash (failedBufferName k +:+ ".json.gz") = false.
Proof.
  unfold failedBufferName. rewrite !has_slash_app.
  replace (has_slash (Itoa k)) with false; [reflexivity|].
  symmetry. apply has_slash_forall.
  eapply string_forall_impl; [|apply Itoa_chars].
  intros c Hc. destruct (Ascii.eqb_spec c slash) as [->|]; [discriminate Hc | reflexivity].
Qed.

Lemma extractWorkerID_failedBufferName (k : Z) :
  minInt <= k <= maxInt ->
  extractWorkerID (failedBufferName k +:+ ".json.gz") = k.
Proof.
  intros Hk. unfold extractWorkerID.
  rewrite Base_plain by (apply failedBufferName_no_slash || discriminate).
  rewrite TrimSuffix_app, failedBufferName_split, Atoi_Itoa by assumption.
  reflexivity.
Qed.

(** C6: a name whose stem does not hold exactly one "worker", or whose
    part after it is not an optionally signed run of digits, is given lane
    0; the name written for lane [k], an [int], is given lane [k]. *)
Theorem extractWorkerID_spec (fileName : string) (k : Z) :
  let stem := TrimSuffix (Base fileName) ".json.gz" in
  (Count stem "worker" <> 1%nat -> extractWorkerID fileName = 0) /\
  (forall a b, Split stem "worker" = [a; b] -> numeric b = false ->
     extractWorkerID fileName = 0) /\
  (minInt <= k <= maxInt ->
     extractWorkerID ("buffer_failed_worker" +:+ Itoa k +:+ ".json.gz") = k).
Proof.
  intros stem. split; [|split].
  - intros Hc. unfold extractWorkerID. fold stem.
    pose proof (Split_length stem "worker") as Hl.
    destruct (Split stem "worker") as [|a [|b [|c l]]]; try reflexivity.
    simpl in Hl. congruence.
  - intros a b Hs Hn. unfold extractWorkerID. fold stem.
    rewrite Hs, (Atoi_not_numeric b Hn). reflexivity.
  - intros Hk. rewrite <- string_app_assoc.
    now apply extractWorkerID_failedBufferName.
Qed.

Lemma extractWorkerID_spec_witness :
  extractWorkerID "notes.json.gz" = 0 /\
  extractWorkerID "buffer_failed_workerX.json.gz" = 0 /\
  extractWorkerID "buffer_failed_worker7.json.gz" = 7.
Proof.
  split; [|split].
  - apply (proj1 (extractWorkerID_spec "notes.json.gz" 7)).
    vm_compute. discriminate.
  - apply (proj1 (proj2 (extractWorkerID_spec "buffer_failed_workerX.json.gz" 7))
             "buffer_failed_" "X"); reflexivity.
  - apply (proj2 (proj2 (extractWorkerID_spec "" 7))).
    vm_compute. split; discriminate.
Defined.

(** A numeric suffix beyond the range of [int] is a range error of [Atoi]
    and falls back to lane 0 as well. *)
Example extractWorkerID_range :
  extractWorkerID "buffer_failed_worker9223372036854775808.json.gz" = 0.
Proof. vm_compute. reflexivity. Qed.

Example extractWorkerID_dir :
  extractWorkerID "tmp/buffer_failed_worker12.json.gz" = 12.
Proof. vm_compute. reflexivity. Qed.

Example extractWorkerID_two_separators :
  extractWorkerID "buffer_failed_workerworker3.json.gz" = 0.
Proof. vm_compute. reflexivity. Qed.

Example extractWorkerID_negative :
  extractWorkerID "buffer_failed_worker-4.json.gz" = -4.
Proof. vm_compute. reflexivity. Qed.

End ExtractWorkerID.


(** ** The executable library satisfies the library contract *)

Section SimFacts.

Import Sim.

Lemma rd_nat_go_digits (s rest : string) : forall acc seen v,
  parse_digits acc s = Some v ->
  seen = true \/ s <> "" ->
  rd_nat_go acc seen (s +:+ String ":" rest) = Some (v, rest).
Proof.
  induction s as [|c s IH]; intros acc seen v Hp Hs.
  - rewrite string_app_nil_l. cbn [rd_nat_go parse_digits] in *.
    rewrite Ascii.eqb_refl. destruct Hs as [->|Hs]; [congruence | congruence].
  - rewrite string_app_cons. cbn [rd_nat_go parse_digits] in *.
    destruct (is_digit c) eqn:Hd; [|discriminate].
    replace (Ascii.eqb c ":") with false.
    + apply IH; [assumption | now left].
    + symmetry. apply Ascii.eqb_neq. intros ->. discriminate Hd.
Qed.

Lemma rd_wr_nat (n : Z) (rest : string) :
  0 <= n -> rd_nat (wr_nat n +:+ rest) = Some (n, rest).
Proof.
  intros Hn. unfold rd_nat, wr_nat. rewrite string_app_assoc.
  change (":" +:+ rest) with (String ":" rest).
  apply rd_nat_go_digits; [now apply utoa_parse|].
  right. destruct (utoa_cons n) as (c & r & ->). discriminate.
Qed.

Lemma rd_take_app (s rest : string) :
  rd_take (String.length s) (s +:+ rest) = Some (s, rest).
Proof.
  induction s as [|c s IH]; [reflexivity|].
  rewrite string_app_cons. cbn [String.length rd_take]. now rewrite IH.
Qed.

Lemma rd_wr_str (s rest : string) : rd_str (wr_str s +:+ rest) = Some (s, rest).
Proof.
  unfold rd_str, wr_str. rewrite string_app_assoc, rd_wr_nat by lia.
  rewrite Nat2Z.id. apply rd_take_app.
Qed.

Lemma rd_wr_bool (b : bool) (rest : string) :
  rd_bool (wr_bool b +:+ rest) = Some (b, rest).
Proof. destruct b; reflexivity. Qed.

Lemma rd_wr_int (z : Z) (rest : string) : rd_int (wr_int z +:+ rest) = Some (z, rest).
Proof.
  unfold rd_int, wr_int. rewrite string_app_assoc, rd_wr_bool, rd_wr_nat by lia.
  destruct (Z.ltb_spec z 0); do 2 f_equal; lia.
Qed.

Lemma rd_wr_float (x : float64) (rest : string) :
  rd_float (wr_float x +:+ rest) = Some (x, rest).
Proof.
  destruct x as [s|s| |s m e]; unfold wr_float.
  - rewrite string_app_assoc. change ("z" +:+ ?t) with (String "z" t).
    cbn [rd_float]. now rewrite Ascii.eqb_refl, rd_wr_bool.
  - rewrite string_app_assoc.
    change (rd_float ("i" +:+ (wr_bool s +:+ rest)))
      with (match rd_bool (wr_bool s +:+ rest) with
            | Some (b, r') => Some (S754_infinity b, r')
            | None => None
            end).
    now rewrite rd_wr_bool.
  - reflexivity.
  - rewrite !string_app_assoc.
    change (rd_float ("f" +:+ (wr_bool s +:+ (wr_nat (Z.pos m) +:+ (wr_int e +:+ rest)))))
      with (match rd_bool (wr_bool s +:+ (wr_nat (Z.pos m) +:+ (wr_int e +:+ rest))) with
            | Some (b, r1) =>
                match rd_nat r1 with
                | Some (Zpos m, r2) =>
                    match rd_int r2 with
                    | Some (e, r3) => Some (S754_finite b m e, r3)
                    | None => None
                    end
                | _ => None
                end
            | None => None
            end).
    now rewrite rd_wr_bool, rd_wr_nat, rd_wr_int by lia.
Qed.

Lemma rd_wr_many {A} (wr : A -> string) (rd : Reader A) (l : list A) :
  Forall (fun x => forall rest, rd (wr x +:+ rest) = Some (x, rest)) l ->
  forall rest, rd_many rd (length l) (wr_all wr l +:+ rest) = Some (l, rest).
Proof.
  induction 1 as [|x l Hx _ IH]; intros rest; [reflexivity|].
  cbn [length rd_many wr_all]. now rewrite string_app_assoc, Hx, IH.
Qed.

Lemma rd_wr_list {A} (wr : A -> string) (rd : Reader A) (l : list A) :
  Forall (fun x => forall rest, rd (wr x +:+ rest) = Some (x, rest)) l ->
  forall rest, rd_list rd (wr_list wr l +:+ rest) = Some (l, rest).
Proof.
  intros H rest. unfold rd_list, wr_list.
  rewrite string_app_assoc, rd_wr_nat, Nat2Z.id by lia.
  now apply rd_wr_many.
Qed.

Lemma rd_wr_indicator (i : Indicator) (rest : string) :
  rd_indicator (wr_indicator i +:+ rest) = Some (i, rest).
Proof.
  unfold rd_indicator, wr_indicator.
  rewrite string_app_assoc, rd_wr_str, rd_wr_float. now destruct i.
Qed.

Lemma rd_wr_record (d : DeviceData) (rest : string) :
  0 <= Timestamp d -> rd_record (wr_record d +:+ rest) = Some (d, rest).
Proof.
  intros Ht. unfold rd_record, wr_record.
  rewrite !string_app_assoc, !rd_wr_str, rd_wr_nat by assumption.
  rewrite rd_wr_list; [now destruct d|].
  apply Forall_forall. intros i _ r. apply rd_wr_indicator.
Qed.

Lemma record_exact_timestamp (d : DeviceData) :
  record_exact d = true -> 0 <= Timestamp d < 2 ^ 64.
Proof.
  unfold record_exact. intros H.
  repeat (apply andb_prop in H as [H ?]). lia.
Qed.

Lemma json_exact_supported (ds : list DeviceData) :
  json_exact ds = true -> json_supported ds = true.
Proof.
  unfold json_exact, json_supported. intros H.
  apply forallb_forall. intros d Hd.
  rewrite forallb_forall in H. specialize (H d Hd).
  unfold record_exact in H. apply andb_prop in H as [_ H].
  apply forallb_forall. intros i Hi.
  rewrite forallb_forall in H. specialize (H i Hi).
  unfold indicator_exact in H.
  apply andb_prop in H as [H _]. now apply andb_prop in H as [_ H].
Qed.

Lemma sim_Decode_Marshal (ds : list DeviceData) (b : string) :
  json_exact ds = true ->
  Sim.json_Marshal ds = Some b ->
  Sim.json_Decode (b +:+ newline) = Some ds.
Proof.
  intros Hx. unfold Sim.json_Marshal, Sim.json_Decode.
  rewrite (json_exact_supported ds Hx). intros [= <-].
  rewrite rd_wr_list; [reflexivity|].
  apply Forall_forall. intros d Hd r. apply rd_wr_record.
  unfold json_exact in Hx. rewrite forallb_forall in Hx.
  apply record_exact_timestamp. apply Hx. now apply list_elem_of_In.
Qed.

Lemma sim_ParseFloat_syntax (s : string) (v : float64) :
  Sim.ParseFloat s = (v, Some ErrSyntax) -> v = float64_zero.
Proof.
  unfold Sim.ParseFloat.
  destruct (is_nan_word s); [discriminate|].
  destruct s as [|c r].
  - destruct (is_inf_word ""); [discriminate|].
    destruct (decimal "") as [[m k]|]; [discriminate | now intros [= <-]].
  - destruct (Ascii.eqb c "-"); [|destruct (Ascii.eqb c "+")];
      (match goal with |- context [is_inf_word ?b] => destruct (is_inf_word b) end;
       [discriminate|];
       match goal with |- context [decimal ?b] => destruct (decimal b) as [[m k]|] end;
       [destruct_and?; try discriminate | now intros [= <-]]).
Qed.

End SimFacts.

Lemma SimLib_spec : GoLibSpec SimLib.
Proof.
  constructor; unfold SimLib;
    cbn [ParseFloat json_Marshal json_Decode gzip_compress gzip_decompress].
  - apply sim_ParseFloat_syntax.
  - intros ds. unfold Sim.json_Marshal.
    destruct (json_supported ds); split; intros; (reflexivity || discriminate).
  - apply sim_Decode_Marshal.
  - reflexivity.
  - intros b. reflexivity.
Qed.


(** ** Transform *)

Section Transform.

Context (L : GoLib).




End Transform.


(** The readings of the stand-in collector give 5, 0, 3, 1 and 0.5. *)
Example transform_stand_in :
  map ind_Value (Indicators Samples.record1) =
    [ float64_of_Z 5; float64_zero; float64_of_Z 3; float64_of_Z 1;
      float64_div (float64_of_Z 1) (float64_of_Z 2) ].
Proof. vm_compute. reflexivity. Qed.

(** The text NaN is a number for [ParseFloat]: it is passed on as NaN. *)
Example transform_nan :
  ind_Value <$> Indicators Samples.record_nan !! 0%nat = Some S754_nan.
Proof. vm_compute. reflexivity. Qed.


(** ** Saving a buffer and reading it back *)

Section Persistence.

Context (L : GoLib) (E : Env) (HL : GoLibSpec L).

Lemma readBufferFromFile_files (f : string) (s1 s2 : Sys) :
  files s1 = files s2 -> readBufferFromFile L f s1 = readBufferFromFile L f s2.
Proof. unfold readBufferFromFile. now intros ->. Qed.

Lemma json_Marshal_exact (data : list DeviceData) :
  json_exact data = true -> exists p, json_Marshal L data = Some p.
Proof.
  intros Hx. destruct (json_Marshal L data) as [p|] eqn:M; [eauto|].
  apply (json_Marshal_supported L HL) in M.
  rewrite (json_exact_supported data Hx) in M. discriminate.
Qed.

Lemma saveBufferToFile_requests (data : list DeviceData) (filename : string) (s : Sys) :
  requests (saveBufferToFile L E data filename s) = requests s.
Proof.
  unfold saveBufferToFile.
  destruct (create_ok E _); [destruct (json_Marshal L data)|]; reflexivity.
Qed.

Lemma saveBufferToFile_other (data : list DeviceData) (filename p : string) (s : Sys) :
  p <> filename +:+ ".json.gz" ->
  files (saveBufferToFile L E data filename s) !! p = files s !! p.
Proof.
  intros Hp. unfold saveBufferToFile.
  destruct (create_ok E _); [destruct (json_Marshal L data)|]; cbn [files log_Printf];
    try reflexivity; now rewrite lookup_insert_ne.
Qed.

Lemma saveBufferToFile_denied (data : list DeviceData) (filename : string) (s : Sys) :
  create_ok E (filename +:+ ".json.gz") = false ->
  files (saveBufferToFile L E data filename s) = files s.
Proof. intros H. unfold saveBufferToFile. now rewrite H. Qed.

(** When [Marshal] refuses the records the file is created all the same,
    holds an empty gzip stream, and cannot be decoded. *)
Lemma saveBufferToFile_unsupported (data : list DeviceData) (filename : string) (s : Sys) :
  json_supported data = false ->
  create_ok E (filename +:+ ".json.gz") = true ->
  let s' := saveBufferToFile L E data filename s in
  files s' !! (filename +:+ ".json.gz") = Some (gzip_compress L "") /\
  readBufferFromFile L (filename +:+ ".json.gz") s' = Err ErrDecode.
Proof.
  intros Hu Hc s'. subst s'. unfold saveBufferToFile, readBufferFromFile.
  rewrite Hc. apply (json_Marshal_supported L HL) in Hu. rewrite Hu.
  cbn [files log_Printf]. rewrite lookup_insert_eq.
  rewrite (gzip_roundtrip L HL), (json_Decode_empty L HL). split; reflexivity.
Qed.

(** What was saved reads back. *)
Lemma readBufferFromFile_saved (data : list DeviceData) (filename : string) (s : Sys) :
  json_exact data = true ->
  create_ok E (filename +:+ ".json.gz") = true ->
  readBufferFromFile L (filename +:+ ".json.gz") (saveBufferToFile L E data filename s)
  = Ok data.
Proof.
  intros Hx Hc. unfold saveBufferToFile, readBufferFromFile. rewrite Hc.
  destruct (json_Marshal_exact data Hx) as [p Hp]. rewrite Hp.
  cbn [files]. rewrite lookup_insert_eq, (gzip_roundtrip L HL).
  now rewrite (json_Decode_Marshal L HL data p Hx Hp).
Qed.

(** C7, as amended: for records that JSON represents exactly (finite
    binary64 values, a timestamp within uint64, valid UTF-8 text), and when
    the file can be created, [saveBufferToFile] leaves a file under the
    given name with the suffix .json.gz, a gzip stream of the JSON text and
    a line feed, and [readBufferFromFile] yields from it the same records
    in the same order; the save touches no other file. *)
Theorem save_read_roundtrip (data : list DeviceData) (filename : string) (s : Sys) :
  json_exact data = true ->
  create_ok E (filename +:+ ".json.gz") = true ->
  let path := filename +:+ ".json.gz" in
  let s' := saveBufferToFile L E data filename s in
  (exists p, json_Marshal L data = Some p /\
             files s' !! path = Some (gzip_compress L (p +:+ newline))) /\
  readBufferFromFile L path s' = Ok data /\
  (forall q, q <> path -> files s' !! q = files s !! q).
Proof.
  intros Hx Hc path s'. split; [|split].
  - destruct (json_Marshal_exact data Hx) as [p Hp]. exists p. split; [exact Hp|].
    subst s' path. unfold saveBufferToFile. rewrite Hc, Hp.
    cbn [files]. apply lookup_insert_eq.
  - now apply readBufferFromFile_saved.
  - intros q Hq. now apply saveBufferToFile_other.
Qed.

(** ** Flushing a buffer *)

Lemma sendToAPI_requests (data : list DeviceData) (s : Sys) :
  requests (snd (sendToAPI L E data s)) = requests s ++ [payload_of L data] /\
  files (snd (sendToAPI L E data s)) = files s /\
  logs (snd (sendToAPI L E data s)) = logs s.
Proof.
  unfold sendToAPI. destruct (endpoint E _ _) as [|st body]; [|destruct (is2xx st)];
    repeat split; reflexivity.
Qed.

Lemma sendToAPI_error (data : list DeviceData) (s : Sys) :
  fst (sendToAPI L E data s) = None <->
  http_failed (endpoint E (requests s) (payload_of L data)) = false.
Proof.
  unfold sendToAPI, http_failed.
  destruct (endpoint E _ _) as [|st body]; [|destruct (is2xx st)];
    simpl; split; congruence.
Qed.

(** Every flush sends exactly one request and leaves the buffer empty. *)
Lemma flushBuffer_requests (buffer : Buffer) (workerID : Z) (s : Sys) :
  fst (flushBuffer L E buffer workerID s) = {| Data := [] |} /\
  requests (snd (flushBuffer L E buffer workerID s))
  = requests s ++ [payload_of L (Data buffer)].
Proof.
  unfold flushBuffer.
  pose proof (sendToAPI_requests (Data buffer) s) as (Hr & _ & _).
  destruct (sendToAPI L E (Data buffer) s) as [[e|] s1]; cbn [fst snd] in *;
    split; try reflexivity.
  - now rewrite saveBufferToFile_requests.
  - assumption.
Qed.

(** A failed send with a writable directory: the snapshot is in the file of
    the lane. *)
Lemma flushBuffer_persisted (buffer : Buffer) (workerID : Z) (s : Sys) :
  http_failed (endpoint E (requests s) (payload_of L (Data buffer))) = true ->
  create_ok E (failedBufferName workerID +:+ ".json.gz") = true ->
  json_exact (Data buffer) = true ->
  let s' := snd (flushBuffer L E buffer workerID s) in
  readBufferFromFile L (failedBufferName workerID +:+ ".json.gz") s' = Ok (Data buffer) /\
  (forall p, p <> failedBufferName workerID +:+ ".json.gz" ->
             files s' !! p = files s !! p).
Proof.
  intros Hfail Hc Hx s'. subst s'.
  pose proof (sendToAPI_error (Data buffer) s) as Herr.
  pose proof (sendToAPI_requests (Data buffer) s) as (_ & Hf & _).
  unfold flushBuffer.
  destruct (sendToAPI L E (Data buffer) s) as [[e|] s1]; cbn [fst snd] in *.
  - split; [now apply readBufferFromFile_saved|].
    intros p Hp. rewrite saveBufferToFile_other by assumption.
    cbn [files log_Printf]. now rewrite Hf.
  - destruct Herr as [Herr _]. specialize (Herr eq_refl). congruence.
Qed.

(** A successful send, or a directory that cannot be written, leaves the
    files as they were. *)
Lemma flushBuffer_files_kept (buffer : Buffer) (workerID : Z) (s : Sys) :
  http_failed (endpoint E (requests s) (payload_of L (Data buffer))) = false \/
  create_ok E (failedBufferName workerID +:+ ".json.gz") = false ->
  files (snd (flushBuffer L E buffer workerID s)) = files s.
Proof.
  intros Hcase.
  pose proof (sendToAPI_error (Data buffer) s) as Herr.
  pose proof (sendToAPI_requests (Data buffer) s) as (_ & Hf & _).
  unfold flushBuffer.
  destruct (sendToAPI L E (Data buffer) s) as [[e|] s1]; cbn [fst snd] in *.
  - destruct Hcase as [Hok|Hc].
    + destruct Herr as [_ Herr]. now specialize (Herr Hok).
    + rewrite saveBufferToFile_denied by assumption.
      cbn [files log_Printf]. exact Hf.
  - cbn [files log_Printf]. exact Hf.
Qed.

(** C1, as amended: the buffer is empty after every flush, and a flush
    sends one request.  When the endpoint fails (no 2xx status, or no
    response), the file named for the lane is written: if it can be created
    and the records are ones JSON represents exactly, it then decodes to the
    records of the snapshot in their order, and no other file changes; if it
    cannot be created, the directory is left as it was.  On a 2xx status the
    directory is left as it was. *)
Theorem flushBuffer_spec (buffer : Buffer) (workerID : Z) (s : Sys) :
  let resp := endpoint E (requests s) (payload_of L (Data buffer)) in
  let path := "buffer_failed_worker" +:+ Itoa workerID +:+ ".json.gz" in
  let buffer' := fst (flushBuffer L E buffer workerID s) in
  let s' := snd (flushBuffer L E buffer workerID s) in
  Data buffer' = [] /\
  requests s' = requests s ++ [payload_of L (Data buffer)] /\
  (http_failed resp = true -> create_ok E path = true ->
   json_exact (Data buffer) = true ->
     readBufferFromFile L path s' = Ok (Data buffer) /\
     (forall p, p <> path -> files s' !! p = files s !! p)) /\
  (http_failed resp = true -> create_ok E path = false -> files s' = files s) /\
  (http_failed resp = false -> files s' = files s).
Proof.
  intros resp path buffer' s'.
  assert (Epath : path = failedBufferName workerID +:+ ".json.gz").
  { unfold path, failedBufferName. now rewrite string_app_assoc. }
  destruct (flushBuffer_requests buffer workerID s) as [Hb Hr].
  split; [subst buffer'; now rewrite Hb|]. split; [exact Hr|].
  rewrite Epath. split; [|split].
  - intros Hfail Hc Hx. now apply flushBuffer_persisted.
  - intros _ Hc. apply flushBuffer_files_kept. now right.
  - intros Hok. apply flushBuffer_files_kept. now left.
Qed.

End Persistence.

Lemma save_read_roundtrip_witness :
  readBufferFromFile SimLib "buffer_failed_worker3.json.gz"
    (saveBufferToFile SimLib Samples.env_500 [Samples.record1; Samples.record1]
       "buffer_failed_worker3" Samples.sys_empty)
  = Ok [Samples.record1; Samples.record1].
Proof.
  destruct (save_read_roundtrip SimLib Samples.env_500 SimLib_spec
              [Samples.record1; Samples.record1] "buffer_failed_worker3"
              Samples.sys_empty) as (_ & H & _).
  - vm_compute. reflexivity.
  - vm_compute. reflexivity.
  - exact H.
Defined.

(** C7 as stated fails: a record holding NaN, as [transform] yields it
    for the idle text NaN, is written as an empty gzip stream and does not
    read back. *)
Lemma save_read_nan :
  let s' := saveBufferToFile SimLib Samples.env_500 [Samples.record_nan]
              "buffer_failed_worker3" Samples.sys_empty in
  is_Some (files s' !! "buffer_failed_worker3.json.gz") /\
  readBufferFromFile SimLib "buffer_failed_worker3.json.gz" s'
  <> Ok [Samples.record_nan].
Proof.
  destruct (saveBufferToFile_unsupported SimLib Samples.env_500 SimLib_spec
              [Samples.record_nan] "buffer_failed_worker3" Samples.sys_empty)
    as [Hf Hr]; [vm_compute; reflexivity | reflexivity |].
  cbn zeta. change ("buffer_failed_worker3" +:+ ".json.gz")
    with "buffer_failed_worker3.json.gz" in *.
  rewrite Hf, Hr. split; [eauto | discriminate].
Qed.

Lemma flushBuffer_spec_witness :
  let r := flushBuffer SimLib Samples.env_500 {| Data := [Samples.record1] |} 3
             Samples.sys_empty in
  readBufferFromFile SimLib "buffer_failed_worker3.json.gz" (snd r)
  = Ok [Samples.record1] /\
  Data (fst r) = [].
Proof.
  destruct (flushBuffer_spec SimLib Samples.env_500 SimLib_spec
              {| Data := [Samples.record1] |} 3 Samples.sys_empty)
    as (Hb & _ & Hfail & _ & _).
  split; [|exact Hb].
  apply Hfail; vm_compute; reflexivity.
Defined.

(** C1 as stated fails: the endpoint answers 500, but the working
    directory is not writable, and no file exists after the flush; or the
    snapshot holds NaN, and the file does not hold the records.  The buffer
    is emptied in both cases. *)
Lemma flushBuffer_not_persisted :
  let b1 := {| Data := [Samples.record1] |} in
  let r1 := flushBuffer SimLib Samples.env_500_readonly b1 3 Samples.sys_empty in
  let b2 := {| Data := [Samples.record_nan] |} in
  let r2 := flushBuffer SimLib Samples.env_500 b2 3 Samples.sys_empty in
  (http_failed (endpoint Samples.env_500_readonly (requests Samples.sys_empty)
                  (payload_of SimLib (Data b1))) = true /\
   files (snd r1) !! "buffer_failed_worker3.json.gz" = None /\
   Data (fst r1) = []) /\
  (http_failed (endpoint Samples.env_500 (requests Samples.sys_empty)
                  (payload_of SimLib (Data b2))) = true /\
   readBufferFromFile SimLib "buffer_failed_worker3.json.gz" (snd r2)
   = Err ErrDecode /\
   Data (fst r2) = []).
Proof. vm_compute. repeat split; reflexivity. Qed.

(** On success nothing is written. *)
Example flushBuffer_ok :
  snd (flushBuffer SimLib Samples.env_ok {| Data := [Samples.record1] |} 3
         Samples.sys_empty)
  = {| files := ∅;
       requests := [payload_of SimLib [Samples.record1]];
       logs := [LogFlushed 3 1] |}.
Proof. vm_compute. reflexivity. Qed.


(** ** The load worker *)

Section LoadWorker.

Context (L : GoLib) (E : Env) (cfg : Config).

(** Below the threshold the loop only appends. *)
Lemma loadWorker_loop_below (workerID : Z) (items : list DeviceData) :
  forall (buffer : Buffer) (s : Sys),
  (length (Data buffer) + length items < bufferThreshold cfg)%nat ->
  fold_left (loadWorker_step L E cfg workerID) items (buffer, s)
  = ({| Data := Data buffer ++ items |}, s).
Proof.
  induction items as [|x items IH]; intros buffer s Hlen.
  - cbn. rewrite app_nil_r. now destruct buffer.
  - cbn [fold_left length] in *. unfold loadWorker_step at 2. cbn [Data].
    destruct (Nat.leb_spec (bufferThreshold cfg) (length (Data buffer ++ [x]))) as [Hge|Hlt].
    + rewrite length_app in Hge. cbn in Hge. lia.
    + rewrite IH; cbn [Data].
      * now rewrite <- app_assoc.
      * rewrite length_app. cbn. lia.
Qed.

(** The record that fills the buffer up to the threshold triggers the
    flush, within the same turn of the loop. *)
Lemma loadWorker_loop_at (workerID : Z) (items : list DeviceData) (s : Sys) :
  (0 < bufferThreshold cfg)%nat ->
  length items = bufferThreshold cfg ->
  fold_left (loadWorker_step L E cfg workerID) items ({| Data := [] |}, s)
  = flushBuffer L E {| Data := items |} workerID s.
Proof.
  intros Hpos Hlen.
  destruct (exists_last (l := items)) as (pre & x & ->).
  { intros ->. cbn in Hlen. lia. }
  rewrite length_app in Hlen. cbn in Hlen.
  rewrite fold_left_app, loadWorker_loop_below by (cbn; lia).
  cbn [fold_left Data app]. unfold loadWorker_step. cbn [Data].
  destruct (Nat.leb_spec (bufferThreshold cfg) (length (pre ++ [x]))) as [_|Hlt].
  - reflexivity.
  - rewrite length_app in Hlt. cbn in Hlt. lia.
Qed.

Lemma loadWorker_final_empty (workerID : Z) (s : Sys) :
  loadWorker_final L E workerID ({| Data := [] |}, s) = ({| Data := [] |}, s).
Proof. reflexivity. Qed.

Lemma initBuffers_lookup (n workerID : nat) :
  (workerID < n)%nat -> initBuffers n !! workerID = Some {| Data := [] |}.
Proof. intros H. unfold initBuffers. now apply lookup_replicate_2. Qed.

Lemma initBuffers_insert (n workerID : nat) :
  <[workerID := {| Data := [] |}]> (initBuffers n) = initBuffers n.
Proof.
  unfold initBuffers. apply list_eq. intros i.
  destruct (decide (i = workerID)) as [->|Hne].
  - destruct (decide (workerID < n)%nat) as [Hlt|Hge].
    + rewrite list_lookup_insert_eq by (rewrite length_replicate; lia).
      symmetry. now apply lookup_replicate_2.
    + rewrite list_insert_ge by (rewrite length_replicate; lia). reflexivity.
  - now rewrite list_lookup_insert_ne.
Qed.

(** C2: a lane whose buffer starts empty.  With exactly [bufferThreshold]
    records the flush of these records happens in the loop, before the
    worker takes anything further from its queue, and it is the only one.
    With fewer records, but at least one, the loop does not flush and the
    final flush at closure is the only one.  With no record the worker
    changes nothing: no request, no file, no log line. *)
Theorem loadWorker_flushes (workerID : nat) (items : list DeviceData) (s : Sys) :
  (0 < bufferThreshold cfg)%nat ->
  (workerID < loadWorkers cfg)%nat ->
  let buffers := initBuffers (loadWorkers cfg) in
  let flushed := snd (flushBuffer L E {| Data := items |} (Z.of_nat workerID) s) in
  requests flushed = requests s ++ [payload_of L items] /\
  (length items = bufferThreshold cfg ->
     (forall more,
        loadWorker L E cfg workerID (items ++ more) buffers s
        = loadWorker L E cfg workerID more buffers flushed) /\
     loadWorker L E cfg workerID items buffers s = Some (buffers, flushed)) /\
  ((0 < length items < bufferThreshold cfg)%nat ->
     fold_left (loadWorker_step L E cfg (Z.of_nat workerID)) items ({| Data := [] |}, s)
     = ({| Data := items |}, s) /\
     loadWorker L E cfg workerID items buffers s = Some (buffers, flushed)) /\
  loadWorker L E cfg workerID [] buffers s = Some (buffers, s).
Proof.
  intros Hpos Hid buffers flushed.
  pose proof (flushBuffer_requests L E {| Data := items |} (Z.of_nat workerID) s)
    as [Hb Hr].
  assert (Hnil : forall s0, loadWorker L E cfg workerID [] buffers s0 = Some (buffers, s0)).
  { intros s0. unfold loadWorker, buffers.
    rewrite initBuffers_lookup by assumption. cbn.
    now rewrite initBuffers_insert. }
  assert (Hat : length items = bufferThreshold cfg -> forall more,
            loadWorker L E cfg workerID (items ++ more) buffers s
            = loadWorker L E cfg workerID more buffers flushed).
  { intros Hlen more. unfold loadWorker, buffers.
    rewrite initBuffers_lookup by assumption.
    unfold loadWorker_run. rewrite fold_left_app, loadWorker_loop_at by assumption.
    subst flushed.
    destruct (flushBuffer L E {| Data := items |} (Z.of_nat workerID) s) as [b s1].
    cbn [fst snd] in *. subst b. reflexivity. }
  split; [exact Hr|]. split; [|split; [|apply Hnil]].
  - intros Hlen. split; [now apply Hat|].
    rewrite <- (app_nil_r items) at 1. rewrite Hat by assumption. apply Hnil.
  - intros [Hlo Hhi].
    assert (Hloop : fold_left (loadWorker_step L E cfg (Z.of_nat workerID)) items
                      ({| Data := [] |}, s) = ({| Data := items |}, s)).
    { now rewrite loadWorker_loop_below by (cbn; lia). }
    split; [exact Hloop|].
    unfold loadWorker, buffers. rewrite initBuffers_lookup by assumption.
    unfold loadWorker_run. rewrite Hloop. unfold loadWorker_final. cbn [Data].
    destruct (Nat.ltb_spec 0 (length items)) as [_|]; [|lia].
    subst flushed.
    destruct (flushBuffer L E {| Data := items |} (Z.of_nat workerID) s) as [b s1].
    cbn [fst snd] in *. subst b. now rewrite initBuffers_insert.
Qed.

End LoadWorker.

Lemma loadWorker_flushes_witness :
  let items := replicate 200 Samples.record1 in
  let flushed :=
    snd (flushBuffer SimLib Samples.env_ok {| Data := items |} 3 Samples.sys_empty) in
  loadWorker SimLib Samples.env_ok sourceConfig 3 items (initBuffers 10) Samples.sys_empty
  = Some (initBuffers 10, flushed).
Proof.
  intros items flushed.
  destruct (loadWorker_flushes SimLib Samples.env_ok sourceConfig 3 items
              Samples.sys_empty) as (_ & Hat & _).
  - cbn. lia.
  - cbn. lia.
  - apply Hat. reflexivity.
Defined.

(** Three records and a threshold of two: one flush in the loop, one at
    closure. *)
Example loadWorker_three :
  let cfg := {| bufferThreshold := 2; extractWorkers := 1000; loadWorkers := 2;
                chanCapacity := 2000 |} in
  let r := Samples.record1 in
  option_map (fun st => requests (snd st))
    (loadWorker SimLib Samples.env_ok cfg 0 [r; r; r] (initBuffers 2) Samples.sys_empty)
  = Some [payload_of SimLib [r; r]; payload_of SimLib [r]].
Proof. vm_compute. reflexivity. Qed.


(** ** Loading the failed buffers of an earlier run *)

Section RecoveryFacts.

Context (L : GoLib) (E : Env).

Lemma Chan_eta (ch : Chan) :
  {| ch_cap := ch_cap ch; ch_queue := ch_queue ch ++ [] |} = ch.
Proof. destruct ch. cbn. now rewrite app_nil_r. Qed.

Lemma lane_Some (dataChan : list Chan) (workerID : Z) (ch : Chan) :
  lane dataChan workerID = Some ch ->
  0 <= workerID /\ dataChan !! Z.to_nat workerID = Some ch.
Proof.
  unfold lane. destruct (Z.ltb_spec workerID 0); [discriminate|]. auto.
Qed.

(** The enqueue loop appends the records, in their order, to the queue of
    the lane, provided the lane exists and its queue has room for them. *)
Lemma enqueueAll_fits (workerID : Z) (dataList : list DeviceData) :
  forall (dataChan : list Chan) (ch : Chan),
  lane dataChan workerID = Some ch ->
  (length (ch_queue ch) + length dataList <= ch_cap ch)%nat ->
  enqueueAll workerID dataList dataChan
  = (Finished,
     <[Z.to_nat workerID :=
         {| ch_cap := ch_cap ch; ch_queue := ch_queue ch ++ dataList |}]> dataChan).
Proof.
  induction dataList as [|x rest IH]; intros dataChan ch Hl Hfit.
  - cbn [enqueueAll]. rewrite Chan_eta.
    apply lane_Some in Hl as [_ Hl]. now rewrite list_insert_id.
  - cbn [enqueueAll length] in *. rewrite Hl. unfold chan_send.
    destruct (Nat.ltb_spec (length (ch_queue ch)) (ch_cap ch)) as [_|]; [|lia].
    pose proof (lane_Some _ _ _ Hl) as [Hpos Hlk].
    pose proof (lookup_lt_Some _ _ _ Hlk) as Hlt.
    rewrite (IH _ {| ch_cap := ch_cap ch; ch_queue := ch_queue ch ++ [x] |}).
    + cbn [ch_cap ch_queue]. rewrite list_insert_insert_eq.
      now rewrite <- app_assoc.
    + unfold lane. destruct (Z.ltb_spec workerID 0); [lia|].
      now rewrite list_lookup_insert_eq.
    + cbn [ch_cap ch_queue]. rewrite length_app. cbn. lia.
Qed.

(** With a lane index outside the slice the first send panics. *)
Lemma enqueueAll_out_of_range (workerID : Z) (x : DeviceData)
  (rest : list DeviceData) (dataChan : list Chan) :
  lane dataChan workerID = None ->
  enqueueAll workerID (x :: rest) dataChan = (Panicked, dataChan).
Proof. intros H. cbn [enqueueAll]. now rewrite H. Qed.

(** When the records do not all fit, the queue is filled and the send of
    the next record blocks. *)
Lemma enqueueAll_blocks (workerID : Z) (dataList : list DeviceData) :
  forall (dataChan : list Chan) (ch : Chan),
  lane dataChan workerID = Some ch ->
  (length (ch_queue ch) <= ch_cap ch)%nat ->
  (ch_cap ch < length (ch_queue ch) + length dataList)%nat ->
  enqueueAll workerID dataList dataChan
  = (Blocked,
     <[Z.to_nat workerID :=
         {| ch_cap := ch_cap ch;
            ch_queue := ch_queue ch
                        ++ take (ch_cap ch - length (ch_queue ch)) dataList |}]>
       dataChan).
Proof.
  induction dataList as [|x rest IH]; intros dataChan ch Hl Hle Hgt.
  - cbn in Hgt. lia.
  - cbn [enqueueAll length] in *. rewrite Hl. unfold chan_send.
    pose proof (lane_Some _ _ _ Hl) as [Hpos Hlk].
    pose proof (lookup_lt_Some _ _ _ Hlk) as Hlt.
    destruct (Nat.ltb_spec (length (ch_queue ch)) (ch_cap ch)) as [Hroom|Hfull].
    + rewrite (IH _ {| ch_cap := ch_cap ch; ch_queue := ch_queue ch ++ [x] |}).
      * cbn [ch_cap ch_queue]. rewrite list_insert_insert_eq.
        rewrite length_app. cbn [length].
        replace (ch_cap ch - length (ch_queue ch))%nat
          with (S (ch_cap ch - (length (ch_queue ch) + 1)))%nat by lia.
        cbn [take]. now rewrite <- app_assoc.
      * unfold lane. destruct (Z.ltb_spec workerID 0); [lia|].
        now rewrite list_lookup_insert_eq.
      * cbn [ch_cap ch_queue]. rewrite length_app. cbn. lia.
      * cbn [ch_cap ch_queue]. rewrite length_app. cbn. lia.
    + replace (ch_cap ch - length (ch_queue ch))%nat with 0%nat by lia.
      cbn [take]. rewrite Chan_eta. now rewrite list_insert_id.
Qed.

Lemma removeFile_files (file : string) (s : Sys) :
  files (removeFile E file s)
  = if remove_ok E file then delete file (files s) else files s.
Proof. unfold removeFile. now destruct (remove_ok E file). Qed.

(** C5, as amended: one file of the recovery loop.  If the file decodes,
    the lane parsed from its name exists and the lane's queue has room for
    the records (no load worker runs yet, so a send on a full queue never
    returns), the records are appended once each, in file order, to that
    queue and to no other, and then the file is removed, if the file system
    lets it be.  If the file does not decode, queues and directory stay as
    they are.  Whenever the enqueue loop does not complete, the file is
    still there.  Without matching files recovery changes nothing. *)
Theorem loadFailedBuffer_spec (file : string) (dataChan : list Chan) (s : Sys) :
  let id := extractWorkerID file in
  let r := loadFailedBuffer L E file (dataChan, s) in
  (forall dataList ch,
     readBufferFromFile L file s = Ok dataList ->
     lane dataChan id = Some ch ->
     (length (ch_queue ch) + length dataList <= ch_cap ch)%nat ->
     fst r = Finished /\
     fst (snd r) = <[Z.to_nat id :=
                      {| ch_cap := ch_cap ch; ch_queue := ch_queue ch ++ dataList |}]>
                   dataChan /\
     files (snd (snd r))
     = (if remove_ok E file then delete file (files s) else files s)) /\
  (forall e,
     readBufferFromFile L file s = Err e ->
     fst r = Finished /\ fst (snd r) = dataChan /\ files (snd (snd r)) = files s) /\
  (fst r <> Finished -> files (snd (snd r)) = files s) /\
  (Glob (files s) = [] ->
     loadFailedBuffers L E (dataChan, s) = (Finished, (dataChan, s))).
Proof.
  intros id r. subst r. unfold loadFailedBuffer. fold id.
  rewrite (readBufferFromFile_files L file (log_Printf (LogReloading file) s) s)
    by reflexivity.
  split; [|split; [|split]].
  - intros dataList ch Hread Hl Hfit. rewrite Hread.
    rewrite (enqueueAll_fits id dataList dataChan ch Hl Hfit). cbn [fst snd].
    rewrite removeFile_files. auto.
  - intros e Hread. rewrite Hread. cbn. auto.
  - destruct (readBufferFromFile L file s) as [dataList|e]; [|cbn; congruence].
    destruct (enqueueAll id dataList dataChan) as [[] dataChan']; cbn;
      congruence.
  - intros Hg. unfold loadFailedBuffers. cbn [snd]. now rewrite Hg.
Qed.

(** The loop body when the queue runs full: the file is not touched. *)
Lemma loadFailedBuffer_blocked (file : string) (dataChan : list Chan) (s : Sys)
  (dataList : list DeviceData) (ch : Chan) :
  readBufferFromFile L file s = Ok dataList ->
  lane dataChan (extractWorkerID file) = Some ch ->
  (length (ch_queue ch) <= ch_cap ch)%nat ->
  (ch_cap ch < length (ch_queue ch) + length dataList)%nat ->
  loadFailedBuffer L E file (dataChan, s)
  = (Blocked,
     (<[Z.to_nat (extractWorkerID file) :=
          {| ch_cap := ch_cap ch;
             ch_queue := ch_queue ch
                         ++ take (ch_cap ch - length (ch_queue ch)) dataList |}]>
        dataChan,
      log_Printf (LogReloading file) s)).
Proof.
  intros Hread Hl Hle Hgt. unfold loadFailedBuffer.
  rewrite (readBufferFromFile_files L file (log_Printf (LogReloading file) s) s)
    by reflexivity.
  rewrite Hread, (enqueueAll_blocks _ dataList dataChan ch Hl Hle Hgt).
  reflexivity.
Qed.

End RecoveryFacts.

Section GlobFacts.

Lemma glob_match_failedBufferName (k : Z) :
  glob_match (failedBufferName k +:+ ".json.gz") = true.
Proof.
  unfold glob_match.
  assert (P : strip_prefix "buffer_failed_worker" (failedBufferName k +:+ ".json.gz")
              = Some (Itoa k +:+ ".json.gz")).
  { unfold failedBufferName. rewrite string_app_assoc. reflexivity. }
  rewrite P, failedBufferName_no_slash. unfold HasSuffix.
  now rewrite trim_suffix_opt_app.
Qed.

(** The names [Glob] returns are the matching names of the directory. *)
Lemma elem_of_Glob (fs : gmap string string) (name : string) :
  name ∈ Glob fs <-> is_Some (fs !! name) /\ glob_match name = true.
Proof.
  unfold Glob. rewrite merge_sort_Permutation.
  rewrite list_elem_of_filter, elem_of_elements, elem_of_dom. tauto.
Qed.

Lemma Glob_sorted (fs : gmap string string) : Sorted String.le (Glob fs).
Proof. apply Sorted_merge_sort. apply _. Qed.

(** A directory whose only file matches the pattern. *)
Lemma Glob_single (fs : gmap string string) (name : string) :
  is_Some (fs !! name) ->
  (forall p, p <> name -> fs !! p = None) ->
  glob_match name = true ->
  Glob fs = [name].
Proof.
  intros Hn Ho Hm. unfold Glob.
  assert (Hd : dom fs = {[ name ]}).
  { apply set_eq. intros p. rewrite elem_of_dom, elem_of_singleton. split.
    - intros Hp. destruct (decide (p = name)) as [|Hne]; [assumption|].
      rewrite (Ho p Hne) in Hp. now destruct Hp.
    - now intros ->. }
  rewrite Hd, elements_singleton. cbn [filter list_filter].
  destruct (decide (glob_match name = true)); [reflexivity | contradiction].
Qed.

End GlobFacts.

Lemma loadFailedBuffer_spec_witness :
  let disk := Samples.disk_after_failed_flush 3 [Samples.record1; Samples.record1] in
  let r := loadFailedBuffer SimLib Samples.env_ok "buffer_failed_worker3.json.gz"
             (Samples.lanes0, disk) in
  fst r = Finished /\
  fst (snd r) = <[3%nat := {| ch_cap := 2000;
                              ch_queue := [Samples.record1; Samples.record1] |}]>
                Samples.lanes0 /\
  files (snd (snd r)) = ∅.
Proof.
  intros disk r.
  destruct (loadFailedBuffer_spec SimLib Samples.env_ok
              "buffer_failed_worker3.json.gz" Samples.lanes0 disk) as (Hok & _).
  specialize (Hok [Samples.record1; Samples.record1]
                {| ch_cap := 2000; ch_queue := [] |}).
  destruct Hok as (H1 & H2 & H3).
  - vm_compute. reflexivity.
  - vm_compute. reflexivity.
  - cbn. lia.
  - split; [exact H1 | split; [exact H2 |]].
    subst r. rewrite H3. vm_compute. reflexivity.
Defined.

(** A file that does not decode is logged and left where it is. *)
Example loadFailedBuffers_corrupt :
  loadFailedBuffers SimLib Samples.env_ok (Samples.lanes0, Samples.disk_corrupt)
  = (Finished,
     (Samples.lanes0,
      {| files := files Samples.disk_corrupt; requests := [];
         logs := [LogReloading "buffer_failed_worker1.json.gz";
                  LogReadFailed "buffer_failed_worker1.json.gz"] |})).
Proof. vm_compute. reflexivity. Qed.

(** A directory holding the failed buffer of lane 0 with more records than
    a lane queue takes. *)
Lemma loadFailedBuffers_overfull (data : list DeviceData) :
  json_exact data = true ->
  (chanCapacity sourceConfig < length data)%nat ->
  let disk := Samples.disk_after_failed_flush 0 data in
  let r := loadFailedBuffers SimLib Samples.env_ok (Samples.lanes0, disk) in
  readBufferFromFile SimLib "buffer_failed_worker0.json.gz" disk = Ok data /\
  fst r = Blocked /\
  (ch_queue <$> fst (snd r) !! 0%nat) = Some (take 2000 data) /\
  files (snd (snd r)) = files disk.
Proof.
  intros Hx Hlen disk r.
  destruct (flushBuffer_persisted SimLib Samples.env_500 SimLib_spec
              {| Data := data |} 0 Samples.sys_empty) as [Hread Hother];
    [reflexivity | reflexivity | exact Hx |].
  change (failedBufferName 0 +:+ ".json.gz")
    with "buffer_failed_worker0.json.gz" in *.
  assert (Hread' : readBufferFromFile SimLib "buffer_failed_worker0.json.gz" disk
                   = Ok data).
  { etransitivity; [|exact Hread]. now apply readBufferFromFile_files. }
  assert (Hglob : Glob (files disk) = ["buffer_failed_worker0.json.gz"]).
  { apply Glob_single; [| |reflexivity].
    - unfold readBufferFromFile in Hread'.
      destruct (files disk !! "buffer_failed_worker0.json.gz"); [eauto|discriminate].
    - intros p Hp. exact (Hother p Hp). }
  assert (Hr : r = (Blocked,
                    (<[0%nat := {| ch_cap := 2000; ch_queue := take 2000 data |}]>
                       Samples.lanes0,
                     log_Printf (LogReloading "buffer_failed_worker0.json.gz") disk))).
  { subst r. unfold loadFailedBuffers. cbn [snd]. rewrite Hglob.
    cbn [loadFailedBuffers_loop].
    rewrite (loadFailedBuffer_blocked SimLib Samples.env_ok _ _ _ data
               {| ch_cap := 2000; ch_queue := [] |} Hread');
      [reflexivity | reflexivity | cbn; lia | exact Hlen]. }
  split; [exact Hread'|]. rewrite Hr. cbn [fst snd]. repeat split.
Qed.

(** C5 as stated fails: a file of 2001 records for lane 0 fills the queue
    of 2000; the send of the last record never returns, that record is not
    enqueued and the file stays. *)
Lemma loadFailedBuffers_blocks :
  let data := replicate 2001 Samples.record0 in
  let disk := Samples.disk_after_failed_flush 0 data in
  let r := loadFailedBuffers SimLib Samples.env_ok (Samples.lanes0, disk) in
  glob_match "buffer_failed_worker0.json.gz" = true /\
  readBufferFromFile SimLib "buffer_failed_worker0.json.gz" disk = Ok data /\
  extractWorkerID "buffer_failed_worker0.json.gz" = 0 /\
  fst r = Blocked /\
  (length <$> (ch_queue <$> fst (snd r) !! 0%nat)) = Some 2000%nat /\
  files (snd (snd r)) = files disk.
Proof.
  intros data disk r.
  destruct (loadFailedBuffers_overfull data) as (H1 & H2 & H3 & H4).
  - vm_compute. reflexivity.
  - unfold data. rewrite length_replicate. cbn. lia.
  - split; [reflexivity|]. split; [exact H1|]. split; [reflexivity|].
    split; [exact H2|]. split; [|exact H4].
    fold disk r in H3. rewrite H3. cbn [fmap option_fmap option_map].
    unfold data. rewrite length_take, length_replicate. reflexivity.
Qed.

(** C10: the name matches the pattern, the lane parsed from it is 10, the
    lanes are 0 to 9, and the send to [dataChan[10]] panics. *)
Theorem loadFailedBuffers_out_of_range :
  let disk := Samples.disk_after_failed_flush 10 [Samples.record1] in
  Glob (files disk) = ["buffer_failed_worker10.json.gz"] /\
  extractWorkerID "buffer_failed_worker10.json.gz" = 10 /\
  length Samples.lanes0 = 10%nat /\
  lane Samples.lanes0 10 = None /\
  fst (loadFailedBuffers SimLib Samples.env_ok (Samples.lanes0, disk)) = Panicked.
Proof. vm_compute. repeat split; reflexivity. Qed.

(** A negative suffix is parsed as a negative lane and panics as well. *)
Example loadFailedBuffers_negative :
  fst (loadFailedBuffers SimLib Samples.env_ok
         (Samples.lanes0, Samples.disk_after_failed_flush (-1) [Samples.record1]))
  = Panicked.
Proof. vm_compute. reflexivity. Qed.


(** ** Reading the appliance list *)

Section CSVFacts.

Context (L : GoLib).

(** The loop keeps the rows of two or more columns, in their order. *)
Lemma readAppliances_loop_appliances (records : list (list string)) :
  forall i acc s,
  fst (readAppliances_loop i records acc s)
  = acc ++ map (fun rec => {| IP := nth 0 rec ""; HostName := nth 1 rec "" |})
             (filter (fun rec => (2 <= length rec)%nat) records).
Proof.
  induction records as [|rec rest IH]; intros i acc s.
  - cbn. now rewrite app_nil_r.
  - cbn [readAppliances_loop]. rewrite filter_cons.
    destruct (Nat.ltb_spec (length rec) 2) as [Hlt|Hge].
    + rewrite IH. destruct (decide (2 <= length rec)%nat); [lia | reflexivity].
    + rewrite IH. destruct (decide (2 <= length rec)%nat); [|lia].
      cbn [map]. now rewrite <- app_assoc.
Qed.

(** With the reader's default setting a record whose number of fields
    differs from the first record's makes [ReadAll] fail. *)
Lemma csv_ReadAll_ragged (text : string) (first : list string)
  (rest : list (list string)) (rec : list string) :
  csv_records L text = Some (first :: rest) ->
  rec ∈ rest -> length rec <> length first ->
  csv_ReadAll L text = Err ErrFieldCount.
Proof.
  intros Hrec Hin Hne. unfold csv_ReadAll. rewrite Hrec.
  destruct (forallb _ rest) eqn:F; [|reflexivity].
  rewrite forallb_forall in F. apply list_elem_of_In in Hin.
  specialize (F rec Hin). apply Nat.eqb_eq in F. contradiction.
Qed.

(** So the records [ReadAll] returns all have as many fields as the first. *)
Lemma csv_ReadAll_uniform (text : string) (records : list (list string)) :
  csv_ReadAll L text = Ok records ->
  forall first rec, head records = Some first -> rec ∈ records ->
  length rec = length first.
Proof.
  unfold csv_ReadAll. destruct (csv_records L text) as [[|f rest]|]; try discriminate.
  - intros [= <-] first rec Hh. discriminate.
  - destruct (forallb _ rest) eqn:F; [|discriminate].
    intros [= <-] first rec [= <-] Hin.
    apply elem_of_cons in Hin as [->|Hin]; [reflexivity|].
    rewrite forallb_forall in F. apply Nat.eqb_eq, F. now apply list_elem_of_In.
Qed.

End CSVFacts.

(** C8: the list has one line with a single column among lines of two.
    [ReadAll] fails on it with the field-count error, and
    [readAppliancesFromCSV] returns that error: the short line is not
    skipped, no appliance is returned and no warning is logged. *)
Theorem readAppliancesFromCSV_short_row :
  csv_records SimLib Samples.csv_text
  = Some [["10.0.0.1"; "edge-1"]; ["badrow"]; ["10.0.0.2"; "edge-2"]] /\
  readAppliancesFromCSV SimLib "appliances.csv" Samples.disk_csv
  = (Err ErrFieldCount, Samples.disk_csv).
Proof. vm_compute. split; reflexivity. Qed.

(** The loop alone, on the same rows, would skip the short one. *)
Example readAppliances_loop_skips :
  readAppliances_loop 0 [["10.0.0.1"; "edge-1"]; ["badrow"]; ["10.0.0.2"; "edge-2"]]
    [] Samples.sys_empty
  = ([ {| IP := "10.0.0.1"; HostName := "edge-1" |};
       {| IP := "10.0.0.2"; HostName := "edge-2" |} ],
     {| files := ∅; requests := []; logs := [LogSkippingInvalidLine 2] |}).
Proof. vm_compute. reflexivity. Qed.

(** Short lines pass the reader only when every line is as short. *)
Example readAppliancesFromCSV_narrow :
  readAppliancesFromCSV SimLib "appliances.csv" Samples.disk_csv_narrow
  = (Ok [],
     {| files := files Samples.disk_csv_narrow; requests := [];
        logs := [LogSkippingInvalidLine 1; LogSkippingInvalidLine 2] |}).
Proof. vm_compute. reflexivity. Qed.


(** ** The extraction loop *)

Section Scheduler.

Context (cfg : Config).

Ltac sched_simpl :=
  cbn [sc_next sc_holding sc_sem sc_wg sc_phases sc_enqueued sched_init
       running_tasks sched_measure holds_permit in_flight phase_weight] in *.

Lemma phase_sum_insert (f : Phase -> nat) (ps : list Phase) :
  forall i old p,
  ps !! i = Some old ->
  (phase_sum f (<[i := p]> ps) + f old = phase_sum f ps + f p)%nat.
Proof.
  induction ps as [|q ps IH]; intros i old p Hi; [discriminate|].
  destruct i as [|i]; cbn in *.
  - injection Hi as ->. lia.
  - specialize (IH i old p Hi). rewrite <- !Nat.add_assoc. f_equal. exact IH.
Qed.

Lemma phase_sum_replicate (f : Phase -> nat) (n : nat) (p : Phase) :
  phase_sum f (replicate n p) = (n * f p)%nat.
Proof.
  induction n as [|n IH]; [reflexivity|].
  change (phase_sum f (replicate (S n) p))
    with (f p + phase_sum f (replicate n p))%nat.
  rewrite IH. lia.
Qed.

Lemma Phase_eqb_eq (p q : Phase) : Phase_eqb p q = true <-> p = q.
Proof. destruct p, q; cbn; split; congruence. Qed.

Lemma advance_Some (i : nat) (from to : Phase) (s s' : Sched) :
  advance i from to s = Some s' ->
  sc_phases s !! i = Some from /\
  s' = {| sc_next := sc_next s; sc_holding := sc_holding s; sc_sem := sc_sem s;
          sc_wg := sc_wg s; sc_phases := <[i := to]> (sc_phases s);
          sc_enqueued := sc_enqueued s |}.
Proof.
  unfold advance. destruct (sc_phases s !! i) as [p|]; [|discriminate].
  destruct (Phase_eqb p from) eqn:Ep; [|discriminate].
  apply Phase_eqb_eq in Ep as ->. now intros [= <-].
Qed.

Lemma advance_enabled (i : nat) (from to : Phase) (s : Sched) :
  sc_phases s !! i = Some from -> is_Some (advance i from to s).
Proof.
  intros H. unfold advance. rewrite H.
  rewrite (proj2 (Phase_eqb_eq from from) eq_refl). eauto.
Qed.

Lemma sched_init_inv (n : nat) : sched_inv cfg (sched_init n).
Proof.
  constructor; unfold running_tasks; sched_simpl.
  - lia.
  - intros i p Hi. apply lookup_replicate in Hi as [-> _]. split; [lia | reflexivity].
  - rewrite phase_sum_replicate. sched_simpl. lia.
  - lia.
  - discriminate.
  - rewrite phase_sum_replicate. sched_simpl. lia.
  - intros i l Hin. inversion Hin.
Qed.

(** A goroutine moving between two started phases keeps the bookkeeping
    of the loop intact. *)
Lemma started_insert (s : Sched) (i : nat) (from to : Phase) :
  from <> NotStarted -> to <> NotStarted ->
  sc_phases s !! i = Some from ->
  (forall j p, sc_phases s !! j = Some p -> (p = NotStarted <-> (sc_next s <= j)%nat)) ->
  forall j p, <[i := to]> (sc_phases s) !! j = Some p ->
              (p = NotStarted <-> (sc_next s <= j)%nat).
Proof.
  intros Hf Ht Hi Hinv j p Hj.
  destruct (decide (j = i)) as [->|Hne].
  - rewrite list_lookup_insert_eq in Hj by (eapply lookup_lt_Some; eauto).
    injection Hj as <-. specialize (Hinv i from Hi). tauto.
  - rewrite list_lookup_insert_ne in Hj by congruence. now apply Hinv.
Qed.

Ltac finish_inv :=
  constructor; unfold running_tasks; sched_simpl; rewrite ?length_insert;
  try lia; auto; try discriminate;
  try (eapply started_insert; eauto; discriminate).

Lemma sched_do_inv (a : Action) (s s' : Sched) :
  sched_inv cfg s -> sched_do cfg a s = Some s' -> sched_inv cfg s'.
Proof.
  intros [Hn Hst Hsem Hcap Hh Hwg Henq] Hdo.
  unfold running_tasks in *.
  destruct a as [| |i|i|i|i|i]; cbn [sched_do] in Hdo.
  - (* Acquire *)
    destruct (Nat.ltb_spec (sc_next s) (length (sc_phases s))); [|discriminate].
    destruct (sc_holding s) eqn:Hold; [discriminate|]. cbn [andb negb] in Hdo.
    destruct (Nat.ltb_spec (sc_sem s) (extractWorkers cfg)); [|discriminate].
    injection Hdo as <-. finish_inv.
  - (* Spawn *)
    destruct (sc_holding s) eqn:Hold; [|discriminate].
    injection Hdo as <-. specialize (Hh eq_refl).
    destruct (lookup_lt_is_Some_2 (sc_phases s) (sc_next s) Hh) as [p0 Hp0].
    assert (p0 = NotStarted) as -> by (apply (Hst _ _ Hp0); lia).
    pose proof (phase_sum_insert holds_permit _ _ _ Extracting Hp0) as S1.
    pose proof (phase_sum_insert in_flight _ _ _ Extracting Hp0) as S2.
    finish_inv.
    intros j p Hj. destruct (decide (j = sc_next s)) as [->|Hne].
    + rewrite list_lookup_insert_eq in Hj by assumption. injection Hj as <-.
      split; [discriminate | lia].
    + rewrite list_lookup_insert_ne in Hj by congruence.
      specialize (Hst j p Hj). split; intros; [|apply Hst]; try lia.
      assert (sc_next s <= j)%nat by tauto. lia.
  - (* ExtractOk *)
    apply advance_Some in Hdo as [Hi ->].
    pose proof (phase_sum_insert holds_permit _ _ _ Sending Hi) as S1.
    pose proof (phase_sum_insert in_flight _ _ _ Sending Hi) as S2.
    finish_inv.
  - (* ExtractFail *)
    apply advance_Some in Hdo as [Hi ->].
    pose proof (phase_sum_insert holds_permit _ _ _ Exiting Hi) as S1.
    pose proof (phase_sum_insert in_flight _ _ _ Exiting Hi) as S2.
    finish_inv.
  - (* Enqueue *)
    destruct (advance i Sending Exiting s) as [s1|] eqn:A; [|discriminate].
    injection Hdo as <-. apply advance_Some in A as [Hi ->].
    pose proof (phase_sum_insert holds_permit _ _ _ Exiting Hi) as S1.
    pose proof (phase_sum_insert in_flight _ _ _ Exiting Hi) as S2.
    finish_inv.
    intros j l Hin. apply elem_of_app in Hin as [Hin|Hin]; [now apply Henq|].
    apply list_elem_of_singleton in Hin. now injection Hin as -> ->.
  - (* Release *)
    destruct (advance i Exiting Released s) as [s1|] eqn:A; [|discriminate].
    injection Hdo as <-. apply advance_Some in A as [Hi ->].
    pose proof (phase_sum_insert holds_permit _ _ _ Released Hi) as S1.
    pose proof (phase_sum_insert in_flight _ _ _ Released Hi) as S2.
    finish_inv.
  - (* Done *)
    destruct (advance i Released Returned s) as [s1|] eqn:A; [|discriminate].
    injection Hdo as <-. apply advance_Some in A as [Hi ->].
    pose proof (phase_sum_insert holds_permit _ _ _ Returned Hi) as S1.
    pose proof (phase_sum_insert in_flight _ _ _ Returned Hi) as S2.
    finish_inv.
Qed.

Lemma sched_do_length (a : Action) (s s' : Sched) :
  sched_do cfg a s = Some s' -> length (sc_phases s') = length (sc_phases s).
Proof.
  destruct a as [| |i|i|i|i|i]; cbn [sched_do]; intros Hdo.
  - destruct (_ && _ && _); [|discriminate]. now injection Hdo as <-.
  - destruct (sc_holding s); [|discriminate]. injection Hdo as <-. cbn.
    apply length_insert.
  - apply advance_Some in Hdo as [_ ->]. apply length_insert.
  - apply advance_Some in Hdo as [_ ->]. apply length_insert.
  - destruct (advance i Sending Exiting s) as [s1|] eqn:A; [|discriminate].
    injection Hdo as <-. apply advance_Some in A as [_ ->]. apply length_insert.
  - destruct (advance i Exiting Released s) as [s1|] eqn:A; [|discriminate].
    injection Hdo as <-. apply advance_Some in A as [_ ->]. apply length_insert.
  - destruct (advance i Released Returned s) as [s1|] eqn:A; [|discriminate].
    injection Hdo as <-. apply advance_Some in A as [_ ->]. apply length_insert.
Qed.

Lemma sched_reachable_inv (n : nat) (s : Sched) :
  sched_reachable cfg n s -> sched_inv cfg s /\ length (sc_phases s) = n.
Proof.
  unfold sched_reachable. revert s.
  apply (rtc_ind_r (fun s => sched_inv cfg s /\ length (sc_phases s) = n)).
  - split; [apply sched_init_inv | apply length_replicate].
  - intros s1 s2 H12 [a Hdo] [IH1 IH2].
    split; [eapply sched_do_inv; eauto|].
    now rewrite (sched_do_length a s1 s2 Hdo).
Qed.

(** A schedule that runs reaches its final state. *)
Lemma sched_run_reachable (acts : list Action) : forall (n : nat) (s0 s : Sched),
  sched_reachable cfg n s0 -> sched_run cfg acts s0 = Some s -> sched_reachable cfg n s.
Proof.
  induction acts as [|a acts IH]; intros n s0 s Hr Hrun; cbn in Hrun.
  - now injection Hrun as <-.
  - destruct (sched_do cfg a s0) as [s1|] eqn:D; [|discriminate].
    apply (IH n s1 s); [|assumption].
    eapply rtc_r; [exact Hr | now exists a].
Qed.

(** Every step brings the loop closer to its end. *)
Lemma sched_do_measure (a : Action) (s s' : Sched) :
  sched_inv cfg s -> sched_do cfg a s = Some s' ->
  (sched_measure s' < sched_measure s)%nat.
Proof.
  intros [Hn Hst Hsem Hcap Hh Hwg Henq] Hdo. unfold sched_measure.
  destruct a as [| |i|i|i|i|i]; cbn [sched_do] in Hdo.
  - destruct (Nat.ltb_spec (sc_next s) (length (sc_phases s))); [|discriminate].
    destruct (sc_holding s) eqn:Hold; [discriminate|]. cbn [andb negb] in Hdo.
    destruct (_ <? _)%nat; [|discriminate]. injection Hdo as <-. sched_simpl. lia.
  - destruct (sc_holding s) eqn:Hold; [|discriminate].
    injection Hdo as <-. specialize (Hh eq_refl).
    destruct (lookup_lt_is_Some_2 (sc_phases s) (sc_next s) Hh) as [p0 Hp0].
    assert (p0 = NotStarted) as -> by (apply (Hst _ _ Hp0); lia).
    pose proof (phase_sum_insert phase_weight _ _ _ Extracting Hp0) as S1.
    sched_simpl. lia.
  - apply advance_Some in Hdo as [Hi ->].
    pose proof (phase_sum_insert phase_weight _ _ _ Sending Hi) as S1. sched_simpl. lia.
  - apply advance_Some in Hdo as [Hi ->].
    pose proof (phase_sum_insert phase_weight _ _ _ Exiting Hi) as S1. sched_simpl. lia.
  - destruct (advance i Sending Exiting s) as [s1|] eqn:A; [|discriminate].
    injection Hdo as <-. apply advance_Some in A as [Hi ->].
    pose proof (phase_sum_insert phase_weight _ _ _ Exiting Hi) as S1. sched_simpl. lia.
  - destruct (advance i Exiting Released s) as [s1|] eqn:A; [|discriminate].
    injection Hdo as <-. apply advance_Some in A as [Hi ->].
    pose proof (phase_sum_insert phase_weight _ _ _ Released Hi) as S1. sched_simpl. lia.
  - destruct (advance i Released Returned s) as [s1|] eqn:A; [|discriminate].
    injection Hdo as <-. apply advance_Some in A as [Hi ->].
    pose proof (phase_sum_insert phase_weight _ _ _ Returned Hi) as S1. sched_simpl. lia.
Qed.

(** Either some goroutine is under way, or every appliance is before its
    start or past its end. *)
Lemma phases_cases (ps : list Phase) :
  (exists i p, ps !! i = Some p /\ p <> NotStarted /\ p <> Returned) \/
  (forall i p, ps !! i = Some p -> p = NotStarted \/ p = Returned).
Proof.
  induction ps as [|q ps [(i & p & Hi & Hp)|IH]].
  - right. intros i p Hi. discriminate.
  - left. exists (S i), p. auto.
  - assert (Hq : (q = NotStarted \/ q = Returned)
                 \/ (q <> NotStarted /\ q <> Returned))
      by (destruct q; (left; auto; fail) || (right; split; discriminate)).
    destruct Hq as [Hq|[Hq1 Hq2]].
    + right. intros [|i] p Hi; cbn in Hi; [injection Hi as <-; exact Hq | eauto].
    + left. exists 0%nat, q. cbn. auto.
Qed.

Lemma phase_sum_idle (ps : list Phase) :
  (forall i p, ps !! i = Some p -> p = NotStarted \/ p = Returned) ->
  phase_sum holds_permit ps = 0%nat.
Proof.
  induction ps as [|q ps IH]; intros H; [reflexivity|].
  change (phase_sum holds_permit (q :: ps))
    with (holds_permit q + phase_sum holds_permit ps)%nat.
  rewrite IH by (intros i p Hi; apply (H (S i) p Hi)).
  destruct (H 0%nat q eq_refl) as [-> | ->]; reflexivity.
Qed.

Lemma all_returned_false (s : Sched) :
  all_returned s = false ->
  exists i p, sc_phases s !! i = Some p /\ p <> Returned.
Proof.
  unfold all_returned. generalize (sc_phases s) as ps.
  induction ps as [|q ps IH]; cbn; [discriminate|].
  destruct (Phase_eqb q Returned) eqn:Eq; cbn.
  - intros H. destruct (IH H) as (i & p & Hi & Hp). exists (S i), p. auto.
  - intros _. exists 0%nat, q. split; [reflexivity|].
    intros ->. discriminate.
Qed.

(** While an appliance has not returned, the loop or a goroutine can take
    a step, provided [sem] has room for one token at least. *)
Lemma sched_progress (s : Sched) :
  sched_inv cfg s -> (0 < extractWorkers cfg)%nat -> all_returned s = false ->
  exists a s', sched_do cfg a s = Some s'.
Proof.
  intros [Hn Hst Hsem Hcap Hh Hwg Henq] HE Hnot.
  destruct (sc_holding s) eqn:Hold.
  { exists Spawn. cbn [sched_do]. rewrite Hold. eauto. }
  destruct (phases_cases (sc_phases s)) as [(i & p & Hi & Hp1 & Hp2)|Hidle].
  - destruct p; try congruence.
    + exists (ExtractOk i). cbn [sched_do].
      destruct (advance_enabled i _ Sending s Hi) as [s1 ->]. eauto.
    + exists (Enqueue i). cbn [sched_do].
      destruct (advance_enabled i _ Exiting s Hi) as [s1 ->]. eauto.
    + exists (Release i). cbn [sched_do].
      destruct (advance_enabled i _ Released s Hi) as [s1 ->]. eauto.
    + exists (Done i). cbn [sched_do].
      destruct (advance_enabled i _ Returned s Hi) as [s1 ->]. eauto.
  - destruct (all_returned_false s Hnot) as (i & p & Hi & Hp).
    destruct (Hidle i p Hi) as [-> |]; [|contradiction].
    pose proof (proj1 (Hst i _ Hi) eq_refl) as Hle.
    pose proof (lookup_lt_Some _ _ _ Hi) as Hlt.
    exists Acquire. cbn [sched_do]. rewrite Hold. unfold running_tasks in Hsem.
    rewrite (phase_sum_idle _ Hidle) in Hsem.
    destruct (Nat.ltb_spec (sc_next s) (length (sc_phases s))); [|lia].
    destruct (Nat.ltb_spec (sc_sem s) (extractWorkers cfg)); [|lia].
    cbn [andb negb]. eauto.
Qed.

(** C9: in every state the extraction loop can reach, for any number [n]
    of appliances, at most [extractWorkers] extraction tasks are running;
    while [sem] is full the loop cannot take its next token, so it waits;
    every appliance the loop has passed has had its goroutine started, none
    is left out; every step uses up the measure, so no run goes on for ever;
    and as long as an appliance has not returned some step can be taken. *)
Theorem extraction_bounded (n : nat) (s : Sched) :
  sched_reachable cfg n s ->
  (running_tasks s <= extractWorkers cfg)%nat /\
  (sc_sem s = extractWorkers cfg -> sched_do cfg Acquire s = None) /\
  length (sc_phases s) = n /\
  (forall i, (i < sc_next s)%nat ->
     exists p, sc_phases s !! i = Some p /\ p <> NotStarted) /\
  (forall a s', sched_do cfg a s = Some s' ->
     (sched_measure s' < sched_measure s)%nat) /\
  ((0 < extractWorkers cfg)%nat -> all_returned s = false ->
     exists a s', sched_do cfg a s = Some s').
Proof.
  intros Hr. destruct (sched_reachable_inv n s Hr) as [Hinv Hlen].
  pose proof Hinv as [Hn Hst Hsem Hcap Hh Hwg Henq].
  split; [lia|]. split; [|split; [exact Hlen|split; [|split]]].
  - intros Hfull. cbn [sched_do].
    destruct (Nat.ltb_spec (sc_sem s) (extractWorkers cfg)); [lia|].
    now rewrite andb_false_r.
  - intros i Hi.
    destruct (lookup_lt_is_Some_2 (sc_phases s) i ltac:(lia)) as [p Hp].
    exists p. split; [assumption|]. intros ->.
    pose proof (proj1 (Hst i _ Hp) eq_refl). lia.
  - intros a s' Hdo. now apply (sched_do_measure a).
  - now apply sched_progress.
Qed.

(** C3: with [loadWorkers] positive, the lane of the appliance at position
    [index] is [index mod loadWorkers], a lane that exists; whatever the
    order in which the goroutines finish, every record put on a lane queue
    is on the lane of its appliance's position; and with two lanes the
    positions 0, 1, 2 go to lanes 0, 1, 0. *)
Theorem targetWorker_spec (n index : nat) (s : Sched) :
  (0 < loadWorkers cfg)%nat ->
  targetWorker cfg (Z.of_nat index) = Z.of_nat (index mod loadWorkers cfg) /\
  0 <= targetWorker cfg (Z.of_nat index) < Z.of_nat (loadWorkers cfg) /\
  (sched_reachable cfg n s ->
     forall i l, (i, l) ∈ sc_enqueued s -> l = Z.of_nat (i mod loadWorkers cfg)) /\
  (loadWorkers cfg = 2%nat ->
     map (targetWorker cfg) [0; 1; 2] = [0; 1; 0]).
Proof.
  intros HL.
  assert (T : forall i, targetWorker cfg (Z.of_nat i) = Z.of_nat (i mod loadWorkers cfg)).
  { intros i. unfold targetWorker.
    rewrite Z.rem_mod_nonneg by lia. now rewrite Nat2Z.inj_mod. }
  split; [apply T|]. split; [|split].
  - rewrite T. pose proof (Nat.mod_upper_bound index (loadWorkers cfg)). lia.
  - intros Hr i l Hin. destruct (sched_reachable_inv n s Hr) as [Hinv _].
    rewrite (inv_enq cfg s Hinv i l Hin). apply T.
  - intros H2. unfold targetWorker. rewrite H2. reflexivity.
Qed.

End Scheduler.


Lemma state1_reachable :
  sched_reachable SchedSamples.cfg_small 3 SchedSamples.state1.
Proof.
  apply (sched_run_reachable SchedSamples.cfg_small SchedSamples.schedule1 3
           (sched_init 3)); [apply rtc_refl | vm_compute; reflexivity].
Qed.

Lemma extraction_bounded_witness :
  (running_tasks SchedSamples.state1 <= 2)%nat /\
  length (sc_phases SchedSamples.state1) = 3%nat.
Proof.
  destruct (extraction_bounded SchedSamples.cfg_small 3 SchedSamples.state1)
    as (H1 & _ & H3 & _).
  - apply (sched_run_reachable SchedSamples.cfg_small SchedSamples.schedule1 3
             (sched_init 3)); [apply rtc_refl | vm_compute; reflexivity].
  - split; [exact H1 | exact H3].
Defined.

Lemma targetWorker_spec_witness :
  map (targetWorker SchedSamples.cfg_small) [0; 1; 2] = [0; 1; 0] /\
  targetWorker sourceConfig 23 = 3.
Proof.
  split.
  - destruct (targetWorker_spec SchedSamples.cfg_small 3 0 SchedSamples.state1)
      as (_ & _ & _ & H); [cbn; lia|].
    apply H. reflexivity.
  - destruct (targetWorker_spec sourceConfig 0 23 (sched_init 0))
      as (H & _); [cbn; lia|].
    exact H.
Defined.

(** The state the sample run ends in: appliance 1 has returned, 0 and 2
    are about to give their tokens back, and the two records sent went to
    lanes 1 and 0. *)
Example state1_value :
  SchedSamples.state1
  = {| sc_next := 3; sc_holding := false; sc_sem := 2; sc_wg := 2;
       sc_phases := [Exiting; Returned; Exiting];
       sc_enqueued := [(1%nat, 1); (0%nat, 0)] |}.
Proof. vm_compute. reflexivity. Qed.

(** With both tokens taken the loop cannot start the third goroutine. *)
Example sem_full_waits :
  sched_run SchedSamples.cfg_small [Acquire; Spawn; Acquire; Spawn; Acquire]
    (sched_init 3) = None.
Proof. vm_compute. reflexivity. Qed.


(** * Further properties *)

(** ** What a load worker sends *)

Section Chunks.

Context {A : Type}.

Lemma chunks_fuel_nil (f n : nat) : chunks_fuel f n (@nil A) = [].
Proof. now destruct f. Qed.

Lemma chunks_fuel_enough (n : nat) : (0 < n)%nat ->
  forall f1 f2 (l : list A),
  (length l <= f1)%nat -> (length l <= f2)%nat ->
  chunks_fuel f1 n l = chunks_fuel f2 n l.
Proof.
  intros Hn. induction f1 as [|f1 IH]; intros f2 l H1 H2.
  - destruct l; [|cbn in H1; lia]. now rewrite !chunks_fuel_nil.
  - destruct l as [|x l]; [now rewrite !chunks_fuel_nil|].
    destruct f2 as [|f2]; [cbn in H2; lia|].
    cbn [chunks_fuel]. f_equal.
    apply IH; rewrite length_drop; cbn [length] in *; lia.
Qed.

Lemma chunks_cons (n : nat) (l : list A) :
  (0 < n)%nat -> l <> [] -> chunks n l = take n l :: chunks n (drop n l).
Proof.
  intros Hn Hl. unfold chunks. destruct l as [|x l]; [congruence|].
  cbn [length chunks_fuel]. f_equal.
  apply chunks_fuel_enough; [assumption| |reflexivity].
  rewrite length_drop. cbn [length]. lia.
Qed.

Lemma chunks_fuel_concat (n : nat) : (0 < n)%nat ->
  forall f (l : list A), (length l <= f)%nat -> concat (chunks_fuel f n l) = l.
Proof.
  intros Hn. induction f as [|f IH]; intros l Hl.
  - destruct l; [reflexivity | cbn in Hl; lia].
  - destruct l as [|x l]; [reflexivity|].
    cbn [chunks_fuel concat]. rewrite IH.
    + apply take_drop.
    + rewrite length_drop. cbn [length] in *. lia.
Qed.

Lemma chunks_fuel_sizes (n : nat) : (0 < n)%nat ->
  forall f (l : list A),
  Forall (fun c => (0 < length c <= n)%nat) (chunks_fuel f n l).
Proof.
  intros Hn. induction f as [|f IH]; intros l; [constructor|].
  destruct l as [|x l]; [constructor|].
  cbn [chunks_fuel]. constructor; [|apply IH].
  rewrite length_take. cbn [length]. lia.
Qed.

End Chunks.

Section LoadWorkerMore.

Context (L : GoLib) (E : Env) (cfg : Config).

Lemma loadWorker_run_app (workerID : Z) (a b : list DeviceData) (st : Buffer * Sys) :
  loadWorker_run L E cfg workerID (a ++ b) st
  = loadWorker_run L E cfg workerID b (fold_left (loadWorker_step L E cfg workerID) a st).
Proof. unfold loadWorker_run. now rewrite fold_left_app. Qed.

Lemma loadWorker_run_short (workerID : Z) (items : list DeviceData) (s : Sys) :
  items <> [] -> (length items < bufferThreshold cfg)%nat ->
  loadWorker_run L E cfg workerID items ({| Data := [] |}, s)
  = flushBuffer L E {| Data := items |} workerID s.
Proof.
  intros Hne Hlt. unfold loadWorker_run.
  rewrite loadWorker_loop_below by (cbn; lia). cbn [Data app].
  unfold loadWorker_final. cbn [Data].
  destruct items; [congruence | reflexivity].
Qed.

Lemma loadWorker_sends_fuel (workerID : Z) :
  (0 < bufferThreshold cfg)%nat ->
  forall f items s, (length items <= f)%nat ->
  let r := loadWorker_run L E cfg workerID items ({| Data := [] |}, s) in
  fst r = {| Data := [] |} /\
  requests (snd r)
  = requests s ++ map (payload_of L) (chunks_fuel f (bufferThreshold cfg) items).
Proof.
  intros Hpos. induction f as [|f IH]; intros items s Hlen r; subst r.
  - destruct items; [|cbn in Hlen; lia]. cbn. now rewrite app_nil_r.
  - destruct items as [|x items']; [cbn; now rewrite app_nil_r|].
    set (items := x :: items') in *.
    change (chunks_fuel (S f) (bufferThreshold cfg) items)
      with (take (bufferThreshold cfg) items
            :: chunks_fuel f (bufferThreshold cfg) (drop (bufferThreshold cfg) items)).
    destruct (Nat.lt_ge_cases (length items) (bufferThreshold cfg)) as [Hlt|Hge].
    + rewrite loadWorker_run_short by (assumption || discriminate).
      rewrite take_ge, drop_ge, chunks_fuel_nil by lia.
      apply flushBuffer_requests.
    + rewrite <- (take_drop (bufferThreshold cfg) items) at 1 2.
      rewrite !loadWorker_run_app, loadWorker_loop_at
        by (assumption || (rewrite length_take; lia)).
      pose proof (flushBuffer_requests L E
                    {| Data := take (bufferThreshold cfg) items |} workerID s) as [Hb Hr].
      destruct (flushBuffer L E {| Data := take (bufferThreshold cfg) items |}
                  workerID s) as [b1 s1].
      cbn [fst snd Data] in *. subst b1.
      destruct (IH (drop (bufferThreshold cfg) items) s1) as [H1 H2].
      { rewrite length_drop. subst items. cbn [length] in *. lia. }
      split; [exact H1|]. rewrite H2, Hr. cbn [map]. now rewrite <- app_assoc.
Qed.

(** X1: a load worker that starts with an empty buffer and receives
    [items] sends them in consecutive batches of [bufferThreshold] records,
    the rest in a last smaller batch, one request for each in this order;
    the batches put together are [items], none is empty or larger than
    the threshold, and the buffer is empty at the end. *)
Theorem loadWorker_sends_chunks (workerID : Z) (items : list DeviceData) (s : Sys) :
  (0 < bufferThreshold cfg)%nat ->
  let batches := chunks (bufferThreshold cfg) items in
  let r := loadWorker_run L E cfg workerID items ({| Data := [] |}, s) in
  fst r = {| Data := [] |} /\
  requests (snd r) = requests s ++ map (payload_of L) batches /\
  concat batches = items /\
  Forall (fun c => (0 < length c <= bufferThreshold cfg)%nat) batches.
Proof.
  intros Hpos batches r.
  destruct (loadWorker_sends_fuel workerID Hpos (length items) items s (le_n _))
    as [H1 H2].
  split; [exact H1|]. split; [exact H2|]. split.
  - now apply chunks_fuel_concat.
  - now apply chunks_fuel_sizes.
Qed.

(** X2: between two turns of its loop the buffer of a load worker holds
    fewer than [bufferThreshold] records, if it did so at the start. *)
Theorem loadWorker_buffer_bound (workerID : Z) (items : list DeviceData) :
  forall (buffer : Buffer) (s : Sys),
  (length (Data buffer) < bufferThreshold cfg)%nat ->
  (length (Data (fst (fold_left (loadWorker_step L E cfg workerID) items (buffer, s))))
   < bufferThreshold cfg)%nat.
Proof.
  induction items as [|x items IH]; intros buffer s Hlt; [exact Hlt|].
  cbn [fold_left]. unfold loadWorker_step at 2. cbn [Data].
  destruct (Nat.leb_spec (bufferThreshold cfg) (length (Data buffer ++ [x]))) as [Hge|Hlt'].
  - pose proof (flushBuffer_requests L E {| Data := Data buffer ++ [x] |} workerID s)
      as [Hb _].
    destruct (flushBuffer L E {| Data := Data buffer ++ [x] |} workerID s) as [b1 s1].
    cbn [fst] in Hb. subst b1. apply IH. cbn. lia.
  - apply IH. exact Hlt'.
Qed.

End LoadWorkerMore.

Section LastChunk.

Context (L : GoLib) (E : Env) (cfg : Config) (HL : GoLibSpec L).

Lemma json_exact_app (a b : list DeviceData) :
  json_exact (a ++ b) = json_exact a && json_exact b.
Proof. unfold json_exact. apply forallb_app. Qed.

Lemma loadWorker_last_fuel (workerID : Z) :
  (0 < bufferThreshold cfg)%nat ->
  (forall h p, http_failed (endpoint E h p) = true) ->
  create_ok E (failedBufferName workerID +:+ ".json.gz") = true ->
  forall f items s, (length items <= f)%nat -> items <> [] ->
  json_exact items = true ->
  exists c, last (chunks_fuel f (bufferThreshold cfg) items) = Some c /\
    readBufferFromFile L (failedBufferName workerID +:+ ".json.gz")
      (snd (loadWorker_run L E cfg workerID items ({| Data := [] |}, s)))
    = Ok c.
Proof.
  intros Hpos Hfail Hc. induction f as [|f IH]; intros items s Hlen Hne Hx.
  - destruct items; [congruence | cbn in Hlen; lia].
  - destruct items as [|x items']; [congruence|].
    set (items := x :: items') in *.
    change (chunks_fuel (S f) (bufferThreshold cfg) items)
      with (take (bufferThreshold cfg) items
            :: chunks_fuel f (bufferThreshold cfg) (drop (bufferThreshold cfg) items)).
    rewrite <- (take_drop (bufferThreshold cfg) items), json_exact_app in Hx.
    apply andb_prop in Hx as [Hxa Hxb].
    destruct (Nat.lt_ge_cases (length items) (bufferThreshold cfg)) as [Hlt|Hge].
    + rewrite drop_ge, chunks_fuel_nil by lia.
      rewrite take_ge in * by lia.
      exists items. split; [reflexivity|].
      rewrite loadWorker_run_short by (assumption || discriminate).
      now apply (flushBuffer_persisted L E HL {| Data := items |}).
    + assert (Hrun : loadWorker_run L E cfg workerID items ({| Data := [] |}, s)
                     = loadWorker_run L E cfg workerID (drop (bufferThreshold cfg) items)
                         (flushBuffer L E {| Data := take (bufferThreshold cfg) items |}
                            workerID s)).
      { rewrite <- (take_drop (bufferThreshold cfg) items) at 1.
        now rewrite loadWorker_run_app, loadWorker_loop_at
          by (assumption || (rewrite length_take; lia)). }
      pose proof (flushBuffer_requests L E
                    {| Data := take (bufferThreshold cfg) items |} workerID s) as [Hb _].
      pose proof (flushBuffer_persisted L E HL
                    {| Data := take (bufferThreshold cfg) items |} workerID s
                    (Hfail _ _) Hc Hxa) as [Hread _].
      destruct (flushBuffer L E {| Data := take (bufferThreshold cfg) items |}
                  workerID s) as [b1 s1].
      cbn [fst snd Data] in *. subst b1.
      destruct (drop (bufferThreshold cfg) items) as [|y rest] eqn:Hd.
      * rewrite chunks_fuel_nil. eexists. split; [reflexivity|].
        rewrite Hrun. exact Hread.
      * destruct (IH (y :: rest) s1) as (c & Hlast & Hfile);
          [|discriminate|exact Hxb|].
        { rewrite <- Hd, length_drop. subst items. cbn [length] in *. lia. }
        exists c. split; [|rewrite Hrun; exact Hfile].
        rewrite last_cons, Hlast. reflexivity.
Qed.

(** X3: while the endpoint fails every request, each batch of a lane is
    written over the file of the batch before: after the worker has run, the
    file of the lane holds the last batch only, whatever the number of
    batches that failed. *)
Theorem loadWorker_keeps_last_batch (workerID : Z) (items : list DeviceData) (s : Sys) :
  (0 < bufferThreshold cfg)%nat ->
  (forall h p, http_failed (endpoint E h p) = true) ->
  create_ok E (failedBufferName workerID +:+ ".json.gz") = true ->
  items <> [] -> json_exact items = true ->
  exists c, last (chunks (bufferThreshold cfg) items) = Some c /\
    readBufferFromFile L (failedBufferName workerID +:+ ".json.gz")
      (snd (loadWorker_run L E cfg workerID items ({| Data := [] |}, s)))
    = Ok c.
Proof.
  intros Hpos Hfail Hc Hne Hx.
  now apply (loadWorker_last_fuel workerID Hpos Hfail Hc (length items) items s).
Qed.

End LastChunk.

Lemma loadWorker_sends_chunks_witness :
  let r := Samples.record1 in
  requests (snd (loadWorker_run SimLib Samples.env_ok SchedSamples.cfg_small 0
                   [r; r; r] ({| Data := [] |}, Samples.sys_empty)))
  = [payload_of SimLib [r; r]; payload_of SimLib [r]].
Proof.
  intros r.
  destruct (loadWorker_sends_chunks SimLib Samples.env_ok SchedSamples.cfg_small 0
              [r; r; r] Samples.sys_empty) as (_ & H & _).
  - cbn. lia.
  - rewrite H. reflexivity.
Defined.

Lemma loadWorker_buffer_bound_witness :
  (length (Data (fst (fold_left
      (loadWorker_step SimLib Samples.env_ok SchedSamples.cfg_small 0)
      [Samples.record1; Samples.record0; Samples.record1]
      ({| Data := [Samples.record0] |}, Samples.sys_empty)))) < 2)%nat.
Proof.
  apply (loadWorker_buffer_bound SimLib Samples.env_ok SchedSamples.cfg_small 0).
  cbn. lia.
Defined.

Lemma loadWorker_keeps_last_batch_witness :
  readBufferFromFile SimLib "buffer_failed_worker1.json.gz"
    (snd (loadWorker_run SimLib Samples.env_500 SchedSamples.cfg_small 1
            [Samples.record1; Samples.record1; Samples.record0]
            ({| Data := [] |}, Samples.sys_empty)))
  = Ok [Samples.record0].
Proof.
  destruct (loadWorker_keeps_last_batch SimLib Samples.env_500 SchedSamples.cfg_small
              SimLib_spec 1 [Samples.record1; Samples.record1; Samples.record0]
              Samples.sys_empty) as (c & Hlast & Hfile).
  - cbn. lia.
  - intros h p. reflexivity.
  - reflexivity.
  - discriminate.
  - vm_compute. reflexivity.
  - vm_compute in Hlast. injection Hlast as <-. exact Hfile.
Defined.


(** ** Recovery after a failed flush *)

Section GlobMore.

Lemma NoDup_only {A} (l : list A) (a : A) :
  NoDup l -> (forall x, x ∈ l <-> x = a) -> l = [a].
Proof.
  intros Hnd H. destruct l as [|x [|y l]].
  - pose proof (proj2 (H a) eq_refl) as Hin. inversion Hin.
  - f_equal. apply H. left.
  - assert (x = a) as -> by (apply H; left).
    assert (y = a) as -> by (apply H; right; left).
    apply NoDup_cons in Hnd as [Hnot _]. exfalso. apply Hnot. left.
Qed.

(** The directory has one file that matches the pattern. *)
Lemma Glob_only (fs : gmap string string) (name : string) :
  is_Some (fs !! name) -> glob_match name = true ->
  (forall p, is_Some (fs !! p) -> glob_match p = true -> p = name) ->
  Glob fs = [name].
Proof.
  intros Hn Hm Ho. unfold Glob.
  rewrite (NoDup_only (filter (fun n => glob_match n = true) (elements (dom fs))) name).
  - reflexivity.
  - apply NoDup_filter, NoDup_elements.
  - intros x. rewrite list_elem_of_filter, elem_of_elements, elem_of_dom. split.
    + intros [Hx1 Hx2]. now apply Ho.
    + intros ->. auto.
Qed.

(** The directory has no file that matches the pattern. *)
Lemma Glob_none (fs : gmap string string) :
  (forall p, is_Some (fs !! p) -> glob_match p = true -> False) -> Glob fs = [].
Proof.
  intros H. unfold Glob.
  rewrite (elem_of_nil_inv (filter (fun n => glob_match n = true) (elements (dom fs)))).
  - reflexivity.
  - intros x. rewrite list_elem_of_filter, elem_of_elements, elem_of_dom.
    intros [Hx1 Hx2]. eauto.
Qed.

End GlobMore.

Section FlushRecover.

Context (L : GoLib) (E1 E2 : Env) (cfg : Config) (HL : GoLibSpec L).

Lemma initChannels_lane (n k : nat) :
  (k < n)%nat ->
  lane (initChannels cfg n) (Z.of_nat k)
  = Some {| ch_cap := chanCapacity cfg; ch_queue := [] |}.
Proof.
  intros Hk. unfold lane, initChannels.
  destruct (Z.ltb_spec (Z.of_nat k) 0); [lia|].
  rewrite Nat2Z.id. now apply lookup_replicate_2.
Qed.

(** X4: a batch that could not be sent comes back on the next start.  A
    flush of lane [k] fails and its file can be written; on the next start,
    with a fresh set of lane queues and no other failed buffer in the
    directory, the loader puts exactly the records of the batch, in their
    order, on the queue of lane [k], removes the file, and a further run of
    the loader finds nothing to do. *)
Theorem flush_then_recover (k : nat) (data : list DeviceData) (s : Sys) :
  (k < loadWorkers cfg)%nat -> Z.of_nat k <= maxInt ->
  json_exact data = true -> (length data <= chanCapacity cfg)%nat ->
  http_failed (endpoint E1 (requests s) (payload_of L data)) = true ->
  create_ok E1 (failedBufferName (Z.of_nat k) +:+ ".json.gz") = true ->
  remove_ok E2 (failedBufferName (Z.of_nat k) +:+ ".json.gz") = true ->
  (forall p, is_Some (files s !! p) -> glob_match p = true ->
             p = failedBufferName (Z.of_nat k) +:+ ".json.gz") ->
  let path := failedBufferName (Z.of_nat k) +:+ ".json.gz" in
  let lanes := initChannels cfg (loadWorkers cfg) in
  let s1 := snd (flushBuffer L E1 {| Data := data |} (Z.of_nat k) s) in
  let r := loadFailedBuffers L E2 (lanes, s1) in
  fst r = Finished /\
  fst (snd r) = <[k := {| ch_cap := chanCapacity cfg; ch_queue := data |}]> lanes /\
  files (snd (snd r)) = delete path (files s1) /\
  loadFailedBuffers L E2 (snd r) = (Finished, snd r).
Proof.
  intros Hk Hmax Hx Hfit Hfail Hc Hrm Honly path lanes s1 r.
  destruct (flushBuffer_persisted L E1 HL {| Data := data |} (Z.of_nat k) s Hfail Hc Hx)
    as [Hread Hother].
  subst path. set (path := failedBufferName (Z.of_nat k) +:+ ".json.gz") in *.
  fold s1 in Hread, Hother. cbn [Data] in Hread.
  assert (Hsome : is_Some (files s1 !! path)).
  { unfold readBufferFromFile in Hread.
    destruct (files s1 !! path); [eauto | discriminate]. }
  assert (Hglob : Glob (files s1) = [path]).
  { apply Glob_only; [exact Hsome | apply glob_match_failedBufferName |].
    intros p Hp Hm. destruct (decide (p = path)) as [|Hne]; [assumption|].
    rewrite (Hother p Hne) in Hp. now apply Honly. }
  assert (Hid : extractWorkerID path = Z.of_nat k).
  { apply extractWorkerID_failedBufferName. unfold minInt. lia. }
  assert (Hr : r = (Finished,
                    (<[k := {| ch_cap := chanCapacity cfg; ch_queue := data |}]> lanes,
                     removeFile E2 path (log_Printf (LogReloading path) s1)))).
  { subst r. unfold loadFailedBuffers. cbn [snd]. rewrite Hglob.
    cbn [loadFailedBuffers_loop]. unfold loadFailedBuffer.
    rewrite (readBufferFromFile_files L path (log_Printf (LogReloading path) s1) s1)
      by reflexivity.
    rewrite Hread, Hid.
    rewrite (enqueueAll_fits (Z.of_nat k) data lanes
               {| ch_cap := chanCapacity cfg; ch_queue := [] |})
      by (apply initChannels_lane; assumption) || (cbn; lia).
    rewrite Nat2Z.id. reflexivity. }
  assert (Hfiles : files (snd (snd r)) = delete path (files s1)).
  { rewrite Hr. cbn [fst snd]. rewrite removeFile_files, Hrm. reflexivity. }
  rewrite Hr in *. cbn [fst snd] in *.
  split; [reflexivity|]. split; [reflexivity|]. split; [exact Hfiles|].
  unfold loadFailedBuffers. cbn [snd]. rewrite Glob_none; [reflexivity|].
  rewrite Hfiles. intros p Hp Hm.
  destruct (decide (p = path)) as [->|Hne].
  - rewrite lookup_delete_eq in Hp. now destruct Hp.
  - rewrite lookup_delete_ne in Hp by congruence.
    rewrite (Hother p Hne) in Hp. apply Hne. now apply Honly.
Qed.

End FlushRecover.

Section RecoveryKeeps.

Context (L : GoLib) (E : Env).

Lemma lanes_extend_refl (dc : list Chan) : lanes_extend dc dc.
Proof. split; [reflexivity|]. intros i ch H. exists ch. auto. Qed.

Lemma lanes_extend_trans (a b c : list Chan) :
  lanes_extend a b -> lanes_extend b c -> lanes_extend a c.
Proof.
  intros [L1 H1] [L2 H2]. split; [congruence|].
  intros i ch Hi. destruct (H1 i ch Hi) as (ch1 & Hb & Hc1 & Hp1).
  destruct (H2 i ch1 Hb) as (ch2 & Hc & Hc2 & Hp2).
  exists ch2. split; [assumption|]. split; [congruence|].
  now transitivity (ch_queue ch1).
Qed.

Lemma sys_shrinks_refl (s : Sys) : sys_shrinks s s.
Proof. split; auto. Qed.

Lemma sys_shrinks_trans (a b c : Sys) :
  sys_shrinks a b -> sys_shrinks b c -> sys_shrinks a c.
Proof. intros [R1 F1] [R2 F2]. split; [congruence | auto]. Qed.

Lemma sys_shrinks_log (e : LogEvent) (s : Sys) : sys_shrinks s (log_Printf e s).
Proof. split; auto. Qed.

Lemma sys_shrinks_remove (file : string) (s : Sys) : sys_shrinks s (removeFile E file s).
Proof.
  unfold removeFile. destruct (remove_ok E file); [|apply sys_shrinks_log].
  split; [reflexivity|]. cbn [files log_Printf]. intros p c Hp.
  apply lookup_delete_Some in Hp. tauto.
Qed.

Lemma enqueueAll_extends (workerID : Z) (dataList : list DeviceData) :
  forall dataChan, lanes_extend dataChan (snd (enqueueAll workerID dataList dataChan)).
Proof.
  induction dataList as [|x rest IH]; intros dataChan; cbn [enqueueAll].
  - apply lanes_extend_refl.
  - destruct (lane dataChan workerID) as [ch|] eqn:Hl; [|apply lanes_extend_refl].
    unfold chan_send.
    destruct (length (ch_queue ch) <? ch_cap ch)%nat; [|apply lanes_extend_refl].
    eapply lanes_extend_trans; [|apply IH].
    apply lane_Some in Hl as [_ Hl].
    split; [apply length_insert|]. intros i c Hi.
    destruct (decide (i = Z.to_nat workerID)) as [->|Hne].
    + rewrite Hl in Hi. injection Hi as <-.
      rewrite list_lookup_insert_eq by (eapply lookup_lt_Some; eauto).
      eexists. split; [reflexivity|]. split; [reflexivity|].
      cbn [ch_queue]. now apply prefix_app_r.
    + rewrite list_lookup_insert_ne by congruence. exists c. auto.
Qed.

Lemma loadFailedBuffer_keeps (file : string) (st : list Chan * Sys) :
  lanes_extend (fst st) (fst (snd (loadFailedBuffer L E file st))) /\
  sys_shrinks (snd st) (snd (snd (loadFailedBuffer L E file st))).
Proof.
  destruct st as [dataChan s]. unfold loadFailedBuffer. cbn [fst snd].
  destruct (readBufferFromFile L file (log_Printf (LogReloading file) s)) as [dataList|e].
  - pose proof (enqueueAll_extends (extractWorkerID file) dataList dataChan) as Hx.
    destruct (enqueueAll (extractWorkerID file) dataList dataChan) as [[] dataChan'];
      cbn [fst snd] in *; (split; [exact Hx|]).
    + eapply sys_shrinks_trans; [apply sys_shrinks_log | apply sys_shrinks_remove].
    + apply sys_shrinks_log.
    + apply sys_shrinks_log.
  - cbn [fst snd]. split; [apply lanes_extend_refl|].
    eapply sys_shrinks_trans; apply sys_shrinks_log.
Qed.

Lemma loadFailedBuffers_loop_keeps (fileList : list string) :
  forall st,
  lanes_extend (fst st) (fst (snd (loadFailedBuffers_loop L E fileList st))) /\
  sys_shrinks (snd st) (snd (snd (loadFailedBuffers_loop L E fileList st))).
Proof.
  induction fileList as [|file rest IH]; intros st; cbn [loadFailedBuffers_loop].
  - split; [apply lanes_extend_refl | apply sys_shrinks_refl].
  - pose proof (loadFailedBuffer_keeps file st) as [H1 H2].
    destruct (loadFailedBuffer L E file st) as [[] st1]; cbn [fst snd] in *; auto.
    destruct (IH st1) as [H3 H4].
    split; [eapply lanes_extend_trans | eapply sys_shrinks_trans]; eauto.
Qed.

(** X5: whatever the directory holds and however it ends (done, blocked
    or panicked), the loading of failed buffers sends no request, creates
    and changes no file (it only removes), keeps the number of lanes and
    their capacities, and leaves what was queued before at the head of each
    queue, in its order. *)
Theorem loadFailedBuffers_keeps (dataChan : list Chan) (s : Sys) :
  let r := loadFailedBuffers L E (dataChan, s) in
  requests (snd (snd r)) = requests s /\
  (forall p c, files (snd (snd r)) !! p = Some c -> files s !! p = Some c) /\
  length (fst (snd r)) = length dataChan /\
  (forall i ch, dataChan !! i = Some ch ->
     exists ch', fst (snd r) !! i = Some ch' /\ ch_cap ch' = ch_cap ch /\
                 ch_queue ch `prefix_of` ch_queue ch').
Proof.
  intros r. subst r. unfold loadFailedBuffers. cbn [snd].
  destruct (loadFailedBuffers_loop_keeps (Glob (files s)) (dataChan, s))
    as [[Hlen Hq] [Hr Hf]].
  cbn [fst snd] in *. auto.
Qed.

End RecoveryKeeps.

Lemma flush_then_recover_witness :
  let s1 := snd (flushBuffer SimLib Samples.env_500
                   {| Data := [Samples.record1; Samples.record0] |} 3 Samples.sys_empty) in
  let r := loadFailedBuffers SimLib Samples.env_ok (Samples.lanes0, s1) in
  fst r = Finished /\
  fst (snd r) = <[3%nat := {| ch_cap := 2000;
                              ch_queue := [Samples.record1; Samples.record0] |}]>
                Samples.lanes0.
Proof.
  destruct (flush_then_recover SimLib Samples.env_500 Samples.env_ok sourceConfig
              SimLib_spec 3 [Samples.record1; Samples.record0] Samples.sys_empty)
    as (H1 & H2 & _).
  - cbn. lia.
  - vm_compute. discriminate.
  - vm_compute. reflexivity.
  - cbn. lia.
  - reflexivity.
  - reflexivity.
  - reflexivity.
  - intros p [c Hp]. cbn in Hp. rewrite lookup_empty in Hp. discriminate.
  - split; [exact H1 | exact H2].
Defined.


(** ** More on the extraction loop *)

Section SchedulerMore.

Context (cfg : Config).

Lemma sched_init_sent_inv (n : nat) : sched_sent_inv (sched_init n).
Proof.
  constructor; cbn [sc_enqueued sched_init map].
  - intros i l Hin. inversion Hin.
  - constructor.
Qed.

Lemma sent_after_insert (s : Sched) (i : nat) (from to : Phase) :
  (sent_phase from = true -> sent_phase to = true) ->
  sc_phases s !! i = Some from ->
  (forall j l, (j, l) ∈ sc_enqueued s ->
     exists p, sc_phases s !! j = Some p /\ sent_phase p = true) ->
  forall j l, (j, l) ∈ sc_enqueued s ->
    exists p, <[i := to]> (sc_phases s) !! j = Some p /\ sent_phase p = true.
Proof.
  intros Hft Hi Hinv j l Hin. destruct (Hinv j l Hin) as (p & Hp & Hs).
  destruct (decide (j = i)) as [->|Hne].
  - rewrite Hi in Hp. injection Hp as <-.
    exists to. split; [|auto].
    apply list_lookup_insert_eq. eapply lookup_lt_Some; eauto.
  - exists p. split; [|assumption]. now rewrite list_lookup_insert_ne by congruence.
Qed.

Lemma sched_do_sent_inv (a : Action) (s s' : Sched) :
  sched_inv cfg s -> sched_sent_inv s -> sched_do cfg a s = Some s' ->
  sched_sent_inv s'.
Proof.
  intros Hinv [Hafter Honce] Hdo.
  destruct a as [| |i|i|i|i|i]; cbn [sched_do] in Hdo.
  - destruct (_ && _ && _); [|discriminate]. injection Hdo as <-.
    constructor; assumption.
  - destruct (sc_holding s) eqn:Hold; [|discriminate]. injection Hdo as <-.
    pose proof (inv_hold cfg s Hinv Hold) as Hlt.
    destruct (lookup_lt_is_Some_2 (sc_phases s) (sc_next s) Hlt) as [p0 Hp0].
    assert (p0 = NotStarted) as ->
      by (apply (inv_started cfg s Hinv _ _ Hp0); lia).
    constructor; cbn [sc_phases sc_enqueued]; [|assumption].
    apply (sent_after_insert s _ NotStarted Extracting); auto; cbn; congruence.
  - apply advance_Some in Hdo as [Hi ->].
    constructor; cbn [sc_phases sc_enqueued]; [|assumption].
    apply (sent_after_insert s _ Extracting Sending); auto; cbn; congruence.
  - apply advance_Some in Hdo as [Hi ->].
    constructor; cbn [sc_phases sc_enqueued]; [|assumption].
    apply (sent_after_insert s _ Extracting Exiting); auto; cbn; congruence.
  - destruct (advance i Sending Exiting s) as [s1|] eqn:A; [|discriminate].
    injection Hdo as <-. apply advance_Some in A as [Hi ->].
    constructor; cbn [sc_phases sc_enqueued].
    + intros j l Hin. apply elem_of_app in Hin as [Hin|Hin].
      * now apply (sent_after_insert s _ Sending Exiting) with (l := l).
      * apply list_elem_of_singleton in Hin. injection Hin as -> ->.
        exists Exiting. split; [|reflexivity].
        apply list_lookup_insert_eq. eapply lookup_lt_Some; eauto.
    + rewrite map_app. cbn [map fst]. apply NoDup_app. split; [assumption|].
      split; [|apply NoDup_singleton].
      intros j Hj Hj'. apply list_elem_of_singleton in Hj'. subst j.
      apply list_elem_of_fmap in Hj as ([i' l] & Heq & Hin). cbn in Heq. subst i'.
      destruct (Hafter i l Hin) as (p & Hp & Hs).
      rewrite Hi in Hp. injection Hp as <-. discriminate.
  - destruct (advance i Exiting Released s) as [s1|] eqn:A; [|discriminate].
    injection Hdo as <-. apply advance_Some in A as [Hi ->].
    constructor; cbn [sc_phases sc_enqueued]; [|assumption].
    apply (sent_after_insert s _ Exiting Released); auto; cbn; congruence.
  - destruct (advance i Released Returned s) as [s1|] eqn:A; [|discriminate].
    injection Hdo as <-. apply advance_Some in A as [Hi ->].
    constructor; cbn [sc_phases sc_enqueued]; [|assumption].
    apply (sent_after_insert s _ Released Returned); auto; cbn; congruence.
Qed.

Lemma sched_reachable_both (n : nat) (s : Sched) :
  sched_reachable cfg n s ->
  sched_inv cfg s /\ sched_sent_inv s /\ length (sc_phases s) = n.
Proof.
  unfold sched_reachable. revert s.
  apply (rtc_ind_r (fun s => sched_inv cfg s /\ sched_sent_inv s
                             /\ length (sc_phases s) = n)).
  - split; [apply sched_init_inv|].
    split; [apply sched_init_sent_inv | apply length_replicate].
  - intros s1 s2 H12 [a Hdo] (I1 & I2 & I3).
    split; [eapply sched_do_inv; eauto|].
    split; [eapply sched_do_sent_inv; eauto|].
    now rewrite (sched_do_length cfg a s1 s2 Hdo).
Qed.

Lemma phase_sum_zero (f : Phase -> nat) (ps : list Phase) :
  phase_sum f ps = 0%nat -> forall i p, ps !! i = Some p -> f p = 0%nat.
Proof.
  induction ps as [|q ps IH]; intros H i p Hi; [discriminate|].
  change (phase_sum f (q :: ps)) with (f q + phase_sum f ps)%nat in H.
  destruct i as [|i]; cbn in Hi.
  - injection Hi as <-. lia.
  - apply (IH ltac:(lia) i p Hi).
Qed.

Lemma phase_sum_le (f g : Phase -> nat) (ps : list Phase) :
  (forall p, (f p <= g p)%nat) -> (phase_sum f ps <= phase_sum g ps)%nat.
Proof.
  intros H. induction ps as [|q ps IH]; [reflexivity|].
  change (f q + phase_sum f ps <= g q + phase_sum g ps)%nat.
  specialize (H q). lia.
Qed.

(** X6: once the loop has started a goroutine for every appliance,
    [extractWg.Wait()] can return, its counter being 0, only in a state in
    which every goroutine has returned and every token has been given back:
    the lane queues are closed after the last send. *)
Theorem extraction_wait_safe (n : nat) (s : Sched) :
  sched_reachable cfg n s ->
  sc_next s = n -> sc_holding s = false -> sc_wg s = 0%nat ->
  all_returned s = true /\ sc_sem s = 0%nat /\ running_tasks s = 0%nat.
Proof.
  intros Hr Hnext Hold Hwg.
  destruct (sched_reachable_both n s Hr) as (Hinv & _ & Hlen).
  pose proof Hinv as [Hn Hst Hsem Hcap Hh Hwg' Henq].
  rewrite Hwg in Hwg'. symmetry in Hwg'.
  assert (Hrun : running_tasks s = 0%nat).
  { unfold running_tasks.
    pose proof (phase_sum_le holds_permit in_flight (sc_phases s)) as Hle.
    specialize (Hle ltac:(intros []; cbn; lia)). lia. }
  split; [|split; [rewrite Hsem, Hrun, Hold; reflexivity | exact Hrun]].
  unfold all_returned. apply forallb_forall. intros p Hin.
  apply list_elem_of_In, list_elem_of_lookup in Hin as [i Hi].
  pose proof (phase_sum_zero in_flight _ Hwg' i p Hi) as Hz.
  pose proof (lookup_lt_Some _ _ _ Hi) as Hlt.
  destruct p; try discriminate Hz; try reflexivity.
  pose proof (proj1 (Hst i _ Hi) eq_refl). lia.
Qed.

(** X7: in every state of the extraction loop each appliance has put at
    most one record on a lane queue, so there are at most as many records
    as appliances; each comes from an appliance of the list, and the lane
    it was sent to is one of the queues [initChannels] made, so the send
    does not index out of range. *)
Theorem extraction_sends_once (n : nat) (s : Sched) :
  sched_reachable cfg n s -> (0 < loadWorkers cfg)%nat ->
  NoDup (map fst (sc_enqueued s)) /\
  (length (sc_enqueued s) <= n)%nat /\
  (forall i l, (i, l) ∈ sc_enqueued s ->
     (i < n)%nat /\
     is_Some (lane (initChannels cfg (loadWorkers cfg)) l)).
Proof.
  intros Hr HL.
  destruct (sched_reachable_both n s Hr) as (Hinv & [Hafter Honce] & Hlen).
  assert (Hlt : forall i l, (i, l) ∈ sc_enqueued s -> (i < n)%nat).
  { intros i l Hin. destruct (Hafter i l Hin) as (p & Hp & _).
    apply lookup_lt_Some in Hp. lia. }
  split; [exact Honce|]. split.
  - assert (Hsub : map fst (sc_enqueued s) ⊆+ seq 0 n).
    { apply NoDup_submseteq; [exact Honce|].
      intros i Hi. apply list_elem_of_fmap in Hi as ([i' l] & -> & Hin).
      apply elem_of_seq. specialize (Hlt i' l Hin). cbn. lia. }
    apply submseteq_length in Hsub.
    rewrite length_map, length_seq in Hsub. exact Hsub.
  - intros i l Hin. split; [now apply (Hlt i l)|].
    rewrite (inv_enq cfg s Hinv i l Hin).
    unfold targetWorker. rewrite Z.rem_mod_nonneg by lia.
    rewrite <- Nat2Z.inj_mod.
    unfold lane. destruct (Z.ltb_spec (Z.of_nat (i mod loadWorkers cfg)) 0); [lia|].
    rewrite Nat2Z.id. apply lookup_lt_is_Some_2.
    unfold initChannels. rewrite length_replicate.
    apply Nat.mod_upper_bound. lia.
Qed.

End SchedulerMore.

Lemma extraction_sends_once_witness :
  NoDup (map fst (sc_enqueued SchedSamples.state1)) /\
  (length (sc_enqueued SchedSamples.state1) <= 3)%nat.
Proof.
  destruct (extraction_sends_once SchedSamples.cfg_small 3 SchedSamples.state1)
    as (H1 & H2 & _).
  - apply (sched_run_reachable SchedSamples.cfg_small SchedSamples.schedule1 3
             (sched_init 3)); [apply rtc_refl | vm_compute; reflexivity].
  - cbn. lia.
  - split; [exact H1 | exact H2].
Defined.

Lemma extraction_wait_safe_witness :
  all_returned state_done = true /\ sc_sem state_done = 0%nat.
Proof.
  destruct (extraction_wait_safe SchedSamples.cfg_small 3 state_done)
    as (H1 & H2 & _).
  - apply (sched_run_reachable SchedSamples.cfg_small schedule_done 3
             (sched_init 3)); [apply rtc_refl | vm_compute; reflexivity].
  - reflexivity.
  - reflexivity.
  - reflexivity.
  - split; [exact H1 | exact H2].
Defined.


(** ** The appliance list, once more *)

Section CSVMore.

Context (L : GoLib).

Lemma readAppliances_loop_wide (records : list (list string)) :
  Forall (fun rec => (2 <= length rec)%nat) records ->
  forall i acc s,
  readAppliances_loop i records acc s
  = (acc ++ map (fun rec => {| IP := nth 0 rec ""; HostName := nth 1 rec "" |}) records, s).
Proof.
  induction 1 as [|rec rest Hrec _ IH]; intros i acc s; cbn [readAppliances_loop map].
  - now rewrite app_nil_r.
  - destruct (Nat.ltb_spec (length rec) 2); [lia|].
    rewrite IH. now rewrite <- app_assoc.
Qed.

Lemma readAppliances_loop_narrow (records : list (list string)) :
  Forall (fun rec => (length rec < 2)%nat) records ->
  forall i acc s,
  readAppliances_loop i records acc s
  = (acc, {| files := files s; requests := requests s;
             logs := logs s ++ map LogSkippingInvalidLine (seq (i + 1) (length records)) |}).
Proof.
  induction 1 as [|rec rest Hrec _ IH]; intros i acc s; cbn [readAppliances_loop].
  - cbn. rewrite app_nil_r. now destruct s.
  - destruct (Nat.ltb_spec (length rec) 2); [|lia].
    rewrite IH. cbn [files requests logs log_Printf length seq map].
    rewrite <- app_assoc. cbn [app].
    replace (S i + 1)%nat with (S (i + 1)) by lia. reflexivity.
Qed.

(** X8: [readAppliancesFromCSV] is all or nothing in the rows it keeps.
    When the file is there and [ReadAll] accepts it, either the first
    record has two fields or more, and then every record becomes an
    appliance, in order, and nothing is logged; or it has one field, and
    then no appliance is returned and one warning is logged for each line,
    numbered from 1.  When the file is missing, or [ReadAll] fails, the
    error is returned and nothing is logged. *)
Theorem readAppliancesFromCSV_uniform (filePath : string) (s : Sys) :
  let r := readAppliancesFromCSV L filePath s in
  (files s !! filePath = None -> r = (Err ErrOpen, s)) /\
  (forall text e, files s !! filePath = Some text -> csv_ReadAll L text = Err e ->
     r = (Err e, s)) /\
  (forall text records first,
     files s !! filePath = Some text -> csv_ReadAll L text = Ok records ->
     head records = Some first ->
     ((2 <= length first)%nat ->
        r = (Ok (map (fun rec => {| IP := nth 0 rec ""; HostName := nth 1 rec "" |})
                   records), s)) /\
     ((length first < 2)%nat ->
        r = (Ok [],
             {| files := files s; requests := requests s;
                logs := logs s ++ map LogSkippingInvalidLine
                                    (seq 1 (length records)) |}))).
Proof.
  intros r. subst r. unfold readAppliancesFromCSV. split; [|split].
  - now intros ->.
  - intros text e -> ->. reflexivity.
  - intros text records first Hf Hr Hh. rewrite Hf, Hr.
    pose proof (csv_ReadAll_uniform L text records Hr first) as Hu.
    split; intros Hw.
    + rewrite readAppliances_loop_wide; [reflexivity|].
      apply Forall_forall. intros rec Hin. rewrite (Hu rec Hh Hin). exact Hw.
    + rewrite readAppliances_loop_narrow; [reflexivity|].
      apply Forall_forall. intros rec Hin. rewrite (Hu rec Hh Hin). exact Hw.
Qed.

End CSVMore.

Lemma readAppliancesFromCSV_uniform_witness :
  readAppliancesFromCSV SimLib "appliances.csv" Samples.disk_csv_narrow
  = (Ok [],
     {| files := files Samples.disk_csv_narrow; requests := [];
        logs := [LogSkippingInvalidLine 1; LogSkippingInvalidLine 2] |}).
Proof.
  destruct (readAppliancesFromCSV_uniform SimLib "appliances.csv"
              Samples.disk_csv_narrow) as (_ & _ & H).
  destruct (H ("edge-1" +:+ newline +:+ "edge-2" +:+ newline)
              [["edge-1"]; ["edge-2"]] ["edge-1"]) as [_ Hn];
    [reflexivity | reflexivity | reflexivity |].
  rewrite Hn; [reflexivity | cbn; lia].
Defined.

(** ** The lane of a file name, once more *)

Section ExtractWorkerIDMore.

Lemma is_digit_val (c : ascii) : is_digit c = true -> 0 <= digit_val c <= 9.
Proof.
  unfold is_digit, digit_val. intros H. apply andb_prop in H as [H1 H2].
  apply Nat.leb_le in H1, H2. lia.
Qed.

Lemma parse_digits_nonneg (s : string) : forall acc v,
  0 <= acc -> parse_digits acc s = Some v -> 0 <= v.
Proof.
  induction s as [|c s IH]; intros acc v Ha; cbn [parse_digits].
  - now intros [= <-].
  - destruct (is_digit c) eqn:Hd; [|discriminate].
    apply IH. pose proof (is_digit_val c Hd). lia.
Qed.

Lemma atoi_signed_range (neg : bool) (b : string) (v : Z) (e : option NumError) :
  atoi_signed neg b = (v, e) -> minInt <= v <= maxInt.
Proof.
  unfold atoi_signed, minInt, maxInt.
  destruct b as [|c b]; [intros [= <- _]; lia|].
  destruct (parse_digits 0 (String c b)) as [n|] eqn:P; [|intros [= <- _]; lia].
  pose proof (parse_digits_nonneg _ _ _ (Z.le_refl 0) P) as Hn.
  destruct neg.
  - destruct (Z.ltb_spec (2 ^ 63) n); intros [= <- _]; lia.
  - destruct (Z.ltb_spec (2 ^ 63 - 1) n); intros [= <- _]; lia.
Qed.

Lemma Atoi_range (s : string) (v : Z) (e : option NumError) :
  Atoi s = (v, e) -> minInt <= v <= maxInt.
Proof.
  unfold Atoi. destruct s as [|c r]; [apply atoi_signed_range|].
  destruct (Ascii.eqb c "-"); [|destruct (Ascii.eqb c "+")]; apply atoi_signed_range.
Qed.

(** X9: the lane [extractWorkerID] returns always fits an [int]; and it
    is other than 0 only for a name whose stem holds "worker" exactly once,
    followed by an optionally signed run of digits that [Atoi] reads as
    that lane. *)
Theorem extractWorkerID_nonzero (fileName : string) :
  let stem := TrimSuffix (Base fileName) ".json.gz" in
  minInt <= extractWorkerID fileName <= maxInt /\
  (extractWorkerID fileName <> 0 ->
     Count stem "worker" = 1%nat /\
     exists a b, Split stem "worker" = [a; b] /\ numeric b = true /\
                 Atoi b = (extractWorkerID fileName, None)).
Proof.
  intros stem. unfold extractWorkerID. fold stem.
  pose proof (Split_length stem "worker") as Hlen.
  destruct (Split stem "worker") as [|a [|b [|c l]]] eqn:Hs;
    try (split; [unfold minInt, maxInt; lia | congruence]).
  destruct (Atoi b) as [v [e|]] eqn:Ha;
    [split; [unfold minInt, maxInt; lia | congruence]|].
  split; [exact (Atoi_range b v None Ha)|].
  intros _. split; [cbn in Hlen; lia|].
  exists a, b. split; [reflexivity|]. split; [|exact Ha].
  destruct (numeric b) eqn:Hn; [reflexivity|].
  rewrite (Atoi_not_numeric b Hn) in Ha. discriminate.
Qed.

End ExtractWorkerIDMore.

Lemma extractWorkerID_nonzero_witness :
  Count (TrimSuffix (Base "tmp/buffer_failed_worker12.json.gz") ".json.gz") "worker"
  = 1%nat.
Proof.
  destruct (extractWorkerID_nonzero "tmp/buffer_failed_worker12.json.gz") as [_ H].
  destruct H as [Hc _]; [vm_compute; discriminate | exact Hc].
Defined.


(** ** The mock ingestion server *)

Section MockServerFacts.

Import MockServer.

Lemma string_take_length (n : nat) (s : string) :
  String.length (string_take n s) = Nat.min n (String.length s).
Proof.
  revert s. induction n as [|n IH]; intros [|c s]; cbn; try reflexivity.
  now rewrite IH.
Qed.

Lemma string_take_app (n : nat) (s t : string) :
  (n <= String.length s)%nat ->
  string_take n (string_take n s +:+ t) = string_take n s.
Proof.
  revert s. induction n as [|n IH]; intros [|c s] H; cbn in *; try reflexivity; try lia.
  rewrite string_app_cons. cbn. f_equal. apply IH. lia.
Qed.

(** Within a limit that is not negative [previewBody] returns a text. *)
Lemma previewBody_Some (body : string) (max : Z) :
  0 <= max -> exists r, previewBody body max = Some r.
Proof.
  intros Hpos. unfold previewBody.
  destruct (Z.leb_spec (Z.of_nat (String.length body)) max); [eauto|].
  destruct (Z.ltb_spec max 0); [lia | eauto].
Qed.

(** X10: [previewBody] with a limit that is not negative returns the body
    itself when it is within the limit, and otherwise its first [max] bytes
    followed by the 14 bytes of the marker; either way the result is no
    longer than [max + 14] and starts as the body does.  With a negative
    limit it panics on every body. *)
Theorem previewBody_spec (body : string) (max : Z) :
  (max < 0 -> previewBody body max = None) /\
  (0 <= max ->
     exists r, previewBody body max = Some r /\
       (String.length r <= Z.to_nat max + 14)%nat /\
       string_take (Z.to_nat max) r = string_take (Z.to_nat max) body /\
       (Z.of_nat (String.length body) <= max -> r = body) /\
       (max < Z.of_nat (String.length body) ->
          r = string_take (Z.to_nat max) body +:+ "...(truncated)" /\
          String.length r = (Z.to_nat max + 14)%nat)).
Proof.
  unfold previewBody. split.
  - intros Hneg. destruct (Z.leb_spec (Z.of_nat (String.length body)) max); [lia|].
    destruct (Z.ltb_spec max 0); [reflexivity | lia].
  - intros Hpos.
    destruct (Z.leb_spec (Z.of_nat (String.length body)) max) as [Hle|Hgt].
    + exists body. repeat split; try lia; auto.
    + destruct (Z.ltb_spec max 0); [lia|].
      eexists. split; [reflexivity|].
      assert (Hlen : String.length (string_take (Z.to_nat max) body +:+ "...(truncated)")
                     = (Z.to_nat max + 14)%nat).
      { rewrite string_length_app, string_take_length. cbn [String.length]. lia. }
      split; [lia|]. split; [apply string_take_app; lia|].
      split; [lia|]. intros _. split; [reflexivity | exact Hlen].
Qed.

(** X11: the router of the mock server never panics.  It answers 200
    to a POST on /load, whatever the body holds, and writes two log lines
    for it, the first with the size of the body; it answers 200 to a GET on
    /health and 404 with the text "Unsupported path" to anything else, and
    logs nothing for these. *)
Theorem requestHandler_spec (req : Request) (log : list string) :
  exists reply log', requestHandler req log = Some (reply, log') /\
    (rp_status reply = 200 <->
       (rq_path req = "/load" /\ rq_method req = "POST") \/
       (rq_path req = "/health" /\ rq_method req = "GET")) /\
    (rq_path req = "/load" -> rq_method req = "POST" ->
       reply = {| rp_status := 200; rp_contentType := "application/json";
                  rp_body := status_json "success" |} /\
       exists preview,
         previewBody (rq_body req) 500 = Some preview /\
         log' = log ++ [ "Received POST /load with size "
                           +:+ Itoa (Z.of_nat (String.length (rq_body req)))
                           +:+ " bytes";
                         "Body Preview: " +:+ preview ]) /\
    (~ (rq_path req = "/load" /\ rq_method req = "POST") ->
       log' = log /\
       (rp_status reply = 200 \/
        (rp_status reply = 404 /\ rp_body reply = "Unsupported path"))).
Proof.
  unfold requestHandler, handleLoad.
  destruct (previewBody_Some (rq_body req) 500 ltac:(lia)) as (preview & Hp).
  rewrite Hp.
  destruct (String.eqb_spec (rq_path req) "/load") as [Hl|Hl];
    destruct (String.eqb_spec (rq_method req) "POST") as [Hm|Hm]; cbn [andb].
  - eexists _, _. split; [reflexivity|]. cbn [rp_status StatusOK].
    split; [tauto|]. split; [|tauto].
    intros _ _. split; [reflexivity|]. eauto.
  - destruct (String.eqb_spec (rq_path req) "/health") as [Hh|Hh];
      [congruence|]. cbn [andb].
    eexists _, _. split; [reflexivity|]. cbn.
    split; [split; [discriminate | tauto]|]. split; [tauto|]. auto.
  - destruct (String.eqb_spec (rq_path req) "/health") as [Hh|Hh];
      destruct (String.eqb_spec (rq_method req) "GET") as [Hg|Hg]; cbn [andb];
      eexists _, _; (split; [reflexivity|]); cbn;
      (split; [split; [try discriminate; tauto | try tauto; intros [[? ?]|[? ?]]; congruence]|]);
      (split; [tauto|]); auto.
  - destruct (String.eqb_spec (rq_path req) "/health") as [Hh|Hh];
      destruct (String.eqb_spec (rq_method req) "GET") as [Hg|Hg]; cbn [andb];
      eexists _, _; (split; [reflexivity|]); cbn;
      (split; [split; [try discriminate; tauto | try tauto; intros [[? ?]|[? ?]]; congruence]|]);
      (split; [tauto|]); auto.
Qed.

Lemma mock_endpoint_ok (h : list string) (payload : string) :
  http_failed (MockServer.endpoint h payload) = false.
Proof.
  unfold MockServer.endpoint, requestHandler, handleLoad, load_request.
  cbn [rq_path rq_method rq_body String.eqb Ascii.eqb andb].
  destruct (previewBody_Some payload 500 ltac:(lia)) as (preview & Hp).
  change (String.eqb "/load" "/load" && String.eqb "POST" "POST") with true.
  cbn iota. rewrite Hp. reflexivity.
Qed.

End MockServerFacts.

Section MockPipeline.

Context (L : GoLib).

(** X12: against the mock server every flush counts as sent: the buffer is
    emptied, one request goes out, the success line is logged and no file
    of the working directory is written or changed, whatever the records
    are. *)
Theorem flushBuffer_mock (buffer : Buffer) (workerID : Z) (s : Sys) :
  flushBuffer L env_mock buffer workerID s
  = ({| Data := [] |},
     {| files := files s;
        requests := requests s ++ [payload_of L (Data buffer)];
        logs := logs s ++ [LogFlushed workerID (length (Data buffer))] |}).
Proof.
  unfold flushBuffer, sendToAPI. cbn [endpoint env_mock].
  pose proof (mock_endpoint_ok (requests s) (payload_of L (Data buffer))) as H.
  destruct (MockServer.endpoint (requests s) (payload_of L (Data buffer)))
    as [|status body]; [discriminate|].
  cbn [http_failed] in H. apply negb_false_iff in H. rewrite H. reflexivity.
Qed.

(** X13: records that [json.Marshal] refuses (a NaN or an infinite value
    among them) go out as a request with an empty body; if the endpoint
    answers that request with a 2xx status, as the mock server does, the
    flush counts as sent: the buffer is emptied and no file is written, so
    the records are neither delivered nor kept. *)
Theorem flushBuffer_unsupported_dropped (E : Env) (HL : GoLibSpec L)
  (buffer : Buffer) (workerID : Z) (s : Sys) :
  json_supported (Data buffer) = false ->
  http_failed (endpoint E (requests s) "") = false ->
  let r := flushBuffer L E buffer workerID s in
  Data (fst r) = [] /\
  requests (snd r) = requests s ++ [""] /\
  files (snd r) = files s.
Proof.
  intros Hu Hok r. subst r.
  assert (Hp : payload_of L (Data buffer) = "").
  { unfold payload_of. now rewrite (proj2 (json_Marshal_supported L HL _) Hu). }
  destruct (flushBuffer_requests L E buffer workerID s) as [Hb Hr].
  rewrite Hb, Hr, Hp. split; [reflexivity|]. split; [reflexivity|].
  apply flushBuffer_files_kept. left. now rewrite Hp.
Qed.

End MockPipeline.

Lemma previewBody_spec_witness :
  MockServer.previewBody "0123456789" 4 = Some "0123...(truncated)" /\
  MockServer.previewBody "0123456789" (-1) = None.
Proof.
  destruct (previewBody_spec "0123456789" 4) as [_ H4].
  destruct (previewBody_spec "0123456789" (-1)) as [Hn _].
  split; [|apply Hn; lia].
  destruct (H4 ltac:(lia)) as (r & Hr & _ & _ & _ & Hlong).
  rewrite Hr. f_equal. apply Hlong. cbn. lia.
Defined.

Lemma flushBuffer_unsupported_dropped_witness :
  let r := flushBuffer SimLib env_mock {| Data := [Samples.record_nan] |} 3
             Samples.sys_empty in
  requests (snd r) = [""] /\ files (snd r) = ∅.
Proof.
  destruct (flushBuffer_unsupported_dropped SimLib env_mock SimLib_spec
              {| Data := [Samples.record_nan] |} 3 Samples.sys_empty)
    as (_ & H2 & H3).
  - vm_compute. reflexivity.
  - vm_compute. reflexivity.
  - split; [exact H2 | exact H3].
Defined.

(** ** The resource report *)

(** X14: for a [uint64] count of bytes, [bToMb] is the number of whole
    mebibytes, rounded down, and is below 2^44. *)
Theorem bToMb_spec (b : Z) :
  0 <= b < 2 ^ 64 ->
  bToMb b = b / 1048576 /\
  bToMb b * 1048576 <= b < (bToMb b + 1) * 1048576 /\
  0 <= bToMb b < 2 ^ 44.
Proof.
  intros Hb. unfold bToMb.
  assert (E : b / 1024 / 1024 = b / 1048576).
  { rewrite Z.div_div by lia. reflexivity. }
  rewrite E. split; [reflexivity|].
  pose proof (Z.div_mod b 1048576 ltac:(lia)) as Hd.
  pose proof (Z.mod_pos_bound b 1048576 ltac:(lia)) as Hm.
  split; [lia|].
  split; [apply Z.div_pos; lia|].
  apply Z.div_lt_upper_bound; [lia|].
  change (1048576 * 2 ^ 44) with (2 ^ 64). lia.
Qed.

Lemma bToMb_spec_witness : bToMb 5242879 = 4.
Proof.
  destruct (bToMb_spec 5242879) as (H & _); [lia|].
  rewrite H. reflexivity.
Defined.
